(** * Verification of [scripts/gen_chip_bg.py]

    The script writes an uncompressed 24-bit bitmap: a 54-byte header, then
    one padded row per value of [y], each pixel composited from a base tone,
    one noise draw, fifty random rectangles and a 128-pixel grid.

    Python integers are modelled as [Z]; bytes are [Z] values whose range is
    proved, not assumed; the file is the list of bytes written so far; the
    global [random] state is a tape of raw draws together with the number of
    draws consumed.  Exceptions keep what was written before them, as the
    [with open(...)] block flushes on every exit.  The file system is not
    modelled: [open] and [f.write] always succeed, and [open(..., 'wb')]
    starts from an empty file. *)

From Stdlib Require Import ZArith Lia List Permutation String.
From stdpp Require Import base tactics numbers list.

Local Open Scope Z_scope.

(** ** Effects: file sink, random tape, exceptions *)

Inductive exn : Set :=
  | StructError   (* struct.error: argument out of range for the format *)
  | ValueError    (* empty randint range, negative bytearray size, byte not in range(256) *)
  | IndexError.   (* bytearray index out of range *)

Inductive result (A : Type) : Type :=
  | Ok (a : A)
  | Raise (e : exn).
Arguments Ok {A} a.
Arguments Raise {A} e.

Record world : Type := World {
  written : list Z;   (* bytes handed to f.write so far *)
  draws : nat         (* how many values the random module has produced *)
}.

Definition M (A : Type) : Type := world -> result A * world.

Definition ret {A} (a : A) : M A := fun w => (Ok a, w).

Definition raise {A} (e : exn) : M A := fun w => (Raise e, w).

Definition bind {A B} (m : M A) (k : A -> M B) : M B :=
  fun w =>
    match m w with
    | (Ok a, w') => k a w'
    | (Raise e, w') => (Raise e, w')
    end.

Notation "x <- m ;; k" := (bind m (fun x => k))
  (at level 62, m at next level, right associativity).
Notation "m ;;; k" := (bind m (fun _ => k))
  (at level 62, right associativity).

(** [for v in l: s = body v s] *)
Fixpoint for_each {A S : Type} (l : list A) (body : A -> S -> M S) (s : S) : M S :=
  match l with
  | [] => ret s
  | v :: l' => s' <- body v s ;; for_each l' body s'
  end.

(** [f.write(bs)] *)
Definition write (bs : list Z) : M unit :=
  fun w => (Ok tt, World (written w ++ bs) (draws w)).

(** ** [struct.pack] for the three little-endian formats the script uses *)

Fixpoint le_bytes (n : nat) (v : Z) : list Z :=
  match n with
  | O => []
  | S n' => v `mod` 256 :: le_bytes n' (v `div` 256)
  end.

Definition in_range (lo v hi : Z) : bool := (lo <=? v) && (v <? hi).

(** [struct.pack('<I', v)] *)
Definition pack_I (v : Z) : M (list Z) :=
  if in_range 0 v (2 ^ 32) then ret (le_bytes 4 v) else raise StructError.

(** [struct.pack('<i', v)]: two's complement *)
Definition pack_i (v : Z) : M (list Z) :=
  if in_range (- 2 ^ 31) v (2 ^ 31) then ret (le_bytes 4 (v `mod` 2 ^ 32))
  else raise StructError.

(** [struct.pack('<H', v)] *)
Definition pack_H (v : Z) : M (list Z) :=
  if in_range 0 v (2 ^ 16) then ret (le_bytes 2 v) else raise StructError.

(** ** Byte rows *)

(** [bytearray(n)] *)
Definition bytearray (n : Z) : M (list Z) :=
  if n <? 0 then raise ValueError else ret (replicate (Z.to_nat n) 0).

(** [row[idx] = v] *)
Definition setitem (row : list Z) (idx v : Z) : M (list Z) :=
  let n := Z.of_nat (length row) in
  let i := if idx <? 0 then idx + n else idx in
  if in_range 0 i n then
    if in_range 0 v 256 then ret (<[Z.to_nat i := v]> row) else raise ValueError
  else raise IndexError.

(** ** Blocks and the per-pixel layers *)

Record block : Set := Block {
  bx : Z;
  by_ : Z;
  bw : Z;
  bh : Z;
  color_boost : Z
}.

Definition rgb : Set := (Z * Z * Z)%type.

(** One turn of [for (bx, by, bw, bh, boost) in blocks] at pixel [(x, y)]. *)
Definition block_step (x y : Z) (c : rgb) (k : block) : rgb :=
  let '(r, g, b) := c in
  if (bx k <=? x) && (x <? bx k + bw k) && (by_ k <=? y) && (y <? by_ k + bh k) then
    let r := r + color_boost k `div` 2 in
    let g := g + color_boost k in
    let b := b + color_boost k `div` 2 in
    if (x =? bx k) || (x =? bx k + bw k - 1) || (y =? by_ k) || (y =? by_ k + bh k - 1)
    then (r, g + 40, b)
    else (r, g, b)
  else (r, g, b).

(** The body of the [x] loop between the noise draw and the row stores:
    base colour, noise, blocks, grid lines, clamp. *)
Definition shade (blocks : list block) (n x y : Z) : rgb :=
  let r := 20 in
  let g := 30 in
  let b := 25 in
  let r := r + n in
  let g := g + n in
  let b := b + n in
  let '(r, g, b) := fold_left (block_step x y) blocks (r, g, b) in
  let '(r, g, b) :=
    if (x `mod` 128 =? 0) || (y `mod` 128 =? 0)
    then (r + 30, g + 30, b + 30)
    else (r, g, b) in
  (Z.min 255 r, Z.min 255 g, Z.min 255 b).

Definition row_size (width : Z) : Z := Z.land (width * 3 + 3) (Z.lnot 3).

Section Program.

(** The raw output of the random module: [tape i] is what its [i]-th call
    yields before [randint] reduces it to the requested range. *)
Variable tape : nat -> Z.

(** [random.randint(a, b)]: an integer [N] with [a <= N <= b]; an empty
    range raises [ValueError]. *)
Definition randint (a b : Z) : M Z :=
  fun w =>
    if b <? a then (Raise ValueError, w)
    else (Ok (a + tape (draws w) `mod` (b - a + 1)),
          World (written w) (S (draws w))).

(** Lines 54-61. *)
Definition sample_blocks (count : nat) (width height : Z) : M (list block) :=
  for_each (seq 0 count)
    (fun _ blocks =>
       bx <- randint 0 width ;;
       by_ <- randint 0 height ;;
       bw <- randint 50 200 ;;
       bh <- randint 50 200 ;;
       color_boost <- randint 20 60 ;;
       ret (blocks ++ [Block bx by_ bw bh color_boost]))
    [].

(** Lines 73-111: one pixel of the row. *)
Definition put_pixel (blocks : list block) (y x : Z) (row : list Z) : M (list Z) :=
  n <- randint 0 10 ;;
  let '(r, g, b) := shade blocks n x y in
  let idx := x * 3 in
  row <- setitem row idx b ;;
  row <- setitem row (idx + 1) g ;;
  setitem row (idx + 2) r.

(** Lines 70-113: one row. *)
Definition put_row (blocks : list block) (width : Z) (y : Z) (_ : unit) : M unit :=
  row <- bytearray (row_size width) ;;
  row <- for_each (seqZ 0 width) (put_pixel blocks y) row ;;
  write row.

(** Lines 31-47. *)
Definition write_header (width height : Z) : M unit :=
  let pixel_data_size := row_size width * height in
  let file_size := 14 + 40 + pixel_data_size in
  let offset := 14 + 40 in
  write [66; 77] ;;;
  (p <- pack_I file_size ;; write p) ;;;
  (p <- pack_I 0 ;; write p) ;;;
  (p <- pack_I offset ;; write p) ;;;
  (p <- pack_I 40 ;; write p) ;;;
  (p <- pack_i width ;; write p) ;;;
  (p <- pack_i height ;; write p) ;;;
  (p <- pack_H 1 ;; write p) ;;;
  (p <- pack_H 24 ;; write p) ;;;
  (p <- pack_I 0 ;; write p) ;;;
  (p <- pack_I pixel_data_size ;; write p) ;;;
  (p <- pack_i 2835 ;; write p) ;;;
  (p <- pack_i 2835 ;; write p) ;;;
  (p <- pack_I 0 ;; write p) ;;;
  (p <- pack_I 0 ;; write p).

Definition generate_chip_bg (width height : Z) : M unit :=
  write_header width height ;;;
  blocks <- sample_blocks 50 width height ;;
  for_each (seqZ 0 height) (put_row blocks width) tt.

(** A call on a freshly truncated file, the random module having already
    produced [k] values. *)
Definition run (width height : Z) (k : nat) : result unit * world :=
  generate_chip_bg width height (World [] k).

(** ** What the loops compute, in closed form

    These definitions are the results the proofs below establish for the
    loops above; nothing here is assumed of the program. *)

(** The value [randint a b] returns when it reads position [i] of the tape. *)
Definition draw_in (a b : Z) (i : nat) : Z := a + tape i `mod` (b - a + 1).

(** The block built from the five draws starting at position [i]. *)
Definition block_at (width height : Z) (i : nat) : block :=
  Block (draw_in 0 width i) (draw_in 0 height (1 + i))
        (draw_in 50 200 (2 + i)) (draw_in 50 200 (3 + i))
        (draw_in 20 60 (4 + i)).

Fixpoint blocks_from (width height : Z) (i : nat) (count : nat) : list block :=
  match count with
  | O => []
  | S c => block_at width height i :: blocks_from width height (5 + i) c
  end.

(** The three bytes stored for one pixel, in file order. *)
Definition pixel_bytes (blocks : list block) (n x y : Z) : list Z :=
  let '(r, g, b) := shade blocks n x y in [b; g; r].

Fixpoint pixels_from (blocks : list block) (y x : Z) (i : nat) (m : nat) : list Z :=
  match m with
  | O => []
  | S m' => pixel_bytes blocks (draw_in 0 10 i) x y
            ++ pixels_from blocks y (x + 1) (S i) m'
  end.

(** The row written for [y] when its first noise draw is at position [i]. *)
Definition row_bytes (blocks : list block) (width y : Z) (i : nat) : list Z :=
  pixels_from blocks y 0 i (Z.to_nat width)
  ++ replicate (Z.to_nat (row_size width - 3 * width)) 0.

Fixpoint rows_from (blocks : list block) (width y : Z) (i : nat) (m : nat) : list Z :=
  match m with
  | O => []
  | S m' => row_bytes blocks width y i
            ++ rows_from blocks width (y + 1) (Z.to_nat width + i) m'
  end.

(** The blocks of a call that starts with [k] draws already consumed. *)
Definition sampled_blocks (width height : Z) (k : nat) : list block :=
  blocks_from width height k 50.

(** Position on the tape of the noise draw of pixel [(x, y)]. *)
Definition noise_index (width : Z) (k : nat) (x y : Z) : nat :=
  Z.to_nat (y * width + x) + (250 + k).

Definition noise_at (width : Z) (k : nat) (x y : Z) : Z :=
  draw_in 0 10 (noise_index width k x y).

End Program.

(** ** Header contents and decoding *)

Definition header_fits (width height : Z) : bool :=
  in_range 0 (14 + 40 + row_size width * height) (2 ^ 32)
  && in_range (- 2 ^ 31) width (2 ^ 31)
  && in_range (- 2 ^ 31) height (2 ^ 31)
  && in_range 0 (row_size width * height) (2 ^ 32).

Definition header_bytes (width height : Z) : list Z :=
  [66; 77]
  ++ le_bytes 4 (14 + 40 + row_size width * height)
  ++ le_bytes 4 0
  ++ le_bytes 4 (14 + 40)
  ++ le_bytes 4 40
  ++ le_bytes 4 (width `mod` 2 ^ 32)
  ++ le_bytes 4 (height `mod` 2 ^ 32)
  ++ le_bytes 2 1
  ++ le_bytes 2 24
  ++ le_bytes 4 0
  ++ le_bytes 4 (row_size width * height)
  ++ le_bytes 4 (2835 `mod` 2 ^ 32)
  ++ le_bytes 4 (2835 `mod` 2 ^ 32)
  ++ le_bytes 4 0
  ++ le_bytes 4 0.

(** Little-endian unsigned reading of a byte string. *)
Definition le_unsigned (bs : list Z) : Z :=
  fold_right (fun b acc => b + 256 * acc) 0 bs.

(** Little-endian two's-complement reading of a 4-byte string. *)
Definition le_signed32 (bs : list Z) : Z :=
  let u := le_unsigned bs in
  if u <? 2 ^ 31 then u else u - 2 ^ 32.

(** [s[off : off + len]] *)
Definition slice (off len : nat) (s : list Z) : list Z := take len (drop off s).

Definition is_byte (v : Z) : Prop := 0 <= v <= 255.

(** ** The layers as sums *)

Definition Zsum (l : list Z) : Z := fold_right Z.add 0 l.

Definition inside (k : block) (x y : Z) : bool :=
  (bx k <=? x) && (x <? bx k + bw k) && (by_ k <=? y) && (y <? by_ k + bh k).

Definition on_boundary (k : block) (x y : Z) : bool :=
  (x =? bx k) || (x =? bx k + bw k - 1) || (y =? by_ k) || (y =? by_ k + bh k - 1).

(** What one block adds to red and to blue, and to green, in [block_step]. *)
Definition side_gain (x y : Z) (k : block) : Z :=
  if inside k x y then color_boost k `div` 2 else 0.

Definition green_gain (x y : Z) (k : block) : Z :=
  if inside k x y
  then (if on_boundary k x y then color_boost k + 40 else color_boost k)
  else 0.

Definition grid (x y : Z) : Z :=
  if (x `mod` 128 =? 0) || (y `mod` 128 =? 0) then 30 else 0.

(** ** The compositing rule as the specification words it

    Base tone, noise, then for every block whose half-open rectangle
    contains the pixel half the boost (truncating) on red and blue, the full
    boost on green and 40 more on green on the boundary, then the grid, then
    the ceiling of 255. *)

Definition covering (blocks : list block) (x y : Z) : list block :=
  List.filter (fun k => inside k x y) blocks.

Definition spec_red (blocks : list block) (n x y : Z) : Z :=
  Z.min 255
    (20 + n
     + Zsum (map (fun k => color_boost k ÷ 2) (covering blocks x y))
     + grid x y).

Definition spec_green (blocks : list block) (n x y : Z) : Z :=
  Z.min 255
    (30 + n
     + Zsum (map (fun k => color_boost k + (if on_boundary k x y then 40 else 0))
                 (covering blocks x y))
     + grid x y).

Definition spec_blue (blocks : list block) (n x y : Z) : Z :=
  Z.min 255
    (25 + n
     + Zsum (map (fun k => color_boost k ÷ 2) (covering blocks x y))
     + grid x y).

(** The sampling ranges of one block, both ends included. *)
Definition block_in_ranges (width height : Z) (k : block) : Prop :=
  0 <= bx k <= width /\ 0 <= by_ k <= height /\
  50 <= bw k <= 200 /\ 50 <= bh k <= 200 /\
  20 <= color_boost k <= 60.

(** Dimensions the 32-bit header fields can hold. *)
Definition encodable (width height : Z) : Prop :=
  0 <= width /\ 0 <= height /\ width < 2 ^ 31 /\ height < 2 ^ 31 /\
  14 + 40 + row_size width * height < 2 ^ 32.

(** ** The script run as a program

    Lines 115-118: [generate_chip_bg("images/chip_bg.bmp")] with the default
    width and height of 1024, between two [print] calls; the result carries
    the lines printed, in order. *)
Definition main (tape : nat -> Z) (k : nat) : list string * (result unit * world) :=
  let stdout := ["Generating images/chip_bg.bmp..."%string] in
  match run tape 1024 1024 k with
  | (Ok _, w) => (stdout ++ ["Done."%string], (Ok tt, w))
  | (Raise e, w) => (stdout, (Raise e, w))
  end.

(** * [deploy.py]: [upload_directory]

    The function walks a local directory and drives an SFTP client.  The
    local file system and the client are its environment: they are taken as
    interfaces, and every call the function makes on the client, and every
    line it prints, is recorded in order. *)

(** The exception classes the function can meet.  [IOError] stands for
    [OSError] and its subclasses, which [except IOError] catches. *)
Inductive py_exn : Set :=
  | IOError
  | RecursionError
  | OtherError.

Inductive outcome (A : Type) : Type :=
  | Returns (a : A)
  | Raises (e : py_exn).
Arguments Returns {A} a.
Arguments Raises {A} e.

(** [os.listdir], [os.path.isfile], [os.path.isdir] on the local machine. *)
Record local_fs : Type := LocalFs {
  listdir : string -> outcome (list string);
  isfile : string -> bool;
  isdir : string -> bool
}.

(** The two methods of [sftp_client] the function calls, on a server whose
    state has type [R]; [None] is a normal return. *)
Class SftpClient (R : Type) : Type := {
  sftp_mkdir : string -> R -> option py_exn * R;
  sftp_put : string -> string -> R -> option py_exn * R
}.

Inductive event : Set :=
  | Print (line : string)
  | Mkdir (remote_path : string)
  | Put (local_path remote_path : string).

Record session (R : Type) : Type := Session {
  remote : R;
  events : list event
}.
Arguments Session {R} remote events.
Arguments remote {R} s.
Arguments events {R} s.

Definition U (R A : Type) : Type := session R -> outcome A * session R.

Definition u_ret {R A} (a : A) : U R A := fun s => (Returns a, s).

Definition u_raise {R A} (e : py_exn) : U R A := fun s => (Raises e, s).

Definition u_bind {R A B} (m : U R A) (k : A -> U R B) : U R B :=
  fun s =>
    match m s with
    | (Returns a, s') => k a s'
    | (Raises e, s') => (Raises e, s')
    end.

Notation "x <~ m ;; k" := (u_bind m (fun x => k))
  (at level 62, m at next level, right associativity).
Notation "m ;;~ k" := (u_bind m (fun _ => k))
  (at level 62, right associativity).

(** [for v in l: body v] *)
Fixpoint u_for {R A} (l : list A) (body : A -> U R unit) : U R unit :=
  match l with
  | [] => u_ret tt
  | v :: l' => body v ;;~ u_for l' body
  end.

(** [try: body  except IOError: handler] *)
Definition try_except_IOError {R} (body handler : U R unit) : U R unit :=
  fun s =>
    match body s with
    | (Raises IOError, s') => handler s'
    | other => other
    end.

Definition u_print {R} (line : string) : U R unit :=
  fun s => (Returns tt, Session (remote s) (events s ++ [Print line])).

(** [sftp_client.mkdir(remote_path)] *)
Definition u_mkdir {R} `{SftpClient R} (remote_path : string) : U R unit :=
  fun s =>
    let '(res, r) := sftp_mkdir remote_path (remote s) in
    (match res with None => Returns tt | Some e => Raises e end,
     Session r (events s ++ [Mkdir remote_path])).

(** [sftp_client.put(local_path, remote_path)] *)
Definition u_put {R} `{SftpClient R} (local_path remote_path : string) : U R unit :=
  fun s =>
    let '(res, r) := sftp_put local_path remote_path (remote s) in
    (match res with None => Returns tt | Some e => Raises e end,
     Session r (events s ++ [Put local_path remote_path])).

(** [os.listdir(path)] *)
Definition u_listdir {R} (fs : local_fs) (path : string) : U R (list string) :=
  fun s => (listdir fs path, s).

Definition ends_with (suffix s : string) : bool :=
  (String.length suffix <=? String.length s)%nat
  && String.eqb
       (substring (String.length s - String.length suffix) (String.length suffix) s)
       suffix.

(** [os.path.join(a, b)] of [posixpath]. *)
Definition path_join (a b : string) : string :=
  if String.prefix "/" b then b
  else if String.eqb a "" || ends_with "/" a then (a ++ b)%string
  else (a ++ "/" ++ b)%string.

(** f"{remote_path}/{item}" *)
Definition remote_join (remote_path item : string) : string :=
  (remote_path ++ "/" ++ item)%string.

(** Lines 68-76: one turn of the loop over the listing; [recurse] is the
    function itself, one call deeper. *)
Definition upload_item {R} `{SftpClient R} (fs : local_fs)
    (recurse : string -> string -> U R unit)
    (local_path remote_path item : string) : U R unit :=
  let local_item_path := path_join local_path item in
  let remote_item_path := remote_join remote_path item in
  if isfile fs local_item_path then
    u_print ("Uploading file: " ++ local_item_path ++ " -> " ++ remote_item_path) ;;~
    u_put local_item_path remote_item_path
  else if isdir fs local_item_path then
    recurse local_item_path remote_item_path
  else u_ret tt.

(** Lines 55-76.  [depth] is the number of nested calls the interpreter
    still allows; a call beyond it raises [RecursionError]. *)
Fixpoint upload_directory {R} `{SftpClient R} (fs : local_fs) (depth : nat)
    (local_path remote_path : string) : U R unit :=
  match depth with
  | O => u_raise RecursionError
  | S depth' =>
    u_print ("Creating remote directory: " ++ remote_path) ;;~
    try_except_IOError
      (u_mkdir remote_path)
      (u_print ("Directory " ++ remote_path ++ " already exists.")) ;;~
    items <~ u_listdir fs local_path ;;
    u_for items (upload_item fs (upload_directory fs depth') local_path remote_path)
  end.

(** The directories a call on [(p, q)] descends into, as pairs of a local
    and a remote path: [(p, q)] itself, and whatever is reached from an
    entry of a visited directory that is not a file but is a directory. *)
Inductive visits (fs : local_fs) : string -> string -> string -> string -> Prop :=
  | visits_here (p q : string) : visits fs p q p q
  | visits_below (p q p' q' : string) (items : list string) (item : string) :
      listdir fs p = Returns items -> In item items ->
      isfile fs (path_join p item) = false ->
      isdir fs (path_join p item) = true ->
      visits fs (path_join p item) (remote_join q item) p' q' ->
      visits fs p q p' q'.

(** A local directory whose listing succeeds everywhere below it and whose
    nesting is at most [depth] deep. *)
Inductive tree_within (fs : local_fs) : nat -> string -> Prop :=
  | tree_within_dir (depth : nat) (p : string) (items : list string) :
      listdir fs p = Returns items ->
      (forall item, In item items ->
         isfile fs (path_join p item) = false ->
         isdir fs (path_join p item) = true ->
         tree_within fs depth (path_join p item)) ->
      tree_within fs (S depth) p.

(** What one event needs to be accounted for by a walk from [(p, q)], the
    events before it being [before]: a created directory is the remote side
    of a visited pair; an uploaded file is an entry of a visited directory
    that [isfile] accepts, sent to that directory's remote side, which an
    earlier event has created. *)
Definition event_ok (fs : local_fs) (p q : string) (before : list event)
    (ev : event) : Prop :=
  match ev with
  | Print _ => True
  | Mkdir q' => exists p', visits fs p q p' q'
  | Put l r =>
      exists p' q' items item,
        visits fs p q p' q' /\ listdir fs p' = Returns items /\ In item items /\
        isfile fs l = true /\ l = path_join p' item /\ r = remote_join q' item /\
        In (Mkdir q') before
  end.

Fixpoint trace_ok (fs : local_fs) (p q : string) (before evs : list event) : Prop :=
  match evs with
  | [] => True
  | ev :: rest => event_ok fs p q before ev /\ trace_ok fs p q (before ++ [ev]) rest
  end.

(** A visited directory is covered by a list of events when its remote side
    was created and every file entry of it was uploaded there. *)
Definition covers (fs : local_fs) (p' q' : string) (evs : list event) : Prop :=
  In (Mkdir q') evs /\
  forall items item,
    listdir fs p' = Returns items -> In item items ->
    isfile fs (path_join p' item) = true ->
    In (Put (path_join p' item) (remote_join q' item)) evs.

(** What a completed turn of the loop has done for its entry. *)
Definition item_done (fs : local_fs) (p q item : string) (evs : list event) : Prop :=
  (isfile fs (path_join p item) = true ->
   In (Put (path_join p item) (remote_join q item)) evs) /\
  (isfile fs (path_join p item) = false -> isdir fs (path_join p item) = true ->
   forall p' q', visits fs (path_join p item) (remote_join q item) p' q' ->
     covers fs p' q' evs).

(** What can make a walk from [(p, q)] raise [e]: the depth limit, the
    listing of a visited directory, a [mkdir] of a visited remote directory
    raising something other than [IOError], or a [put]. *)
Definition failure_cause {R} `{SftpClient R} (fs : local_fs) (p q : string)
    (e : py_exn) : Prop :=
  e = RecursionError
  \/ (exists p' q', visits fs p q p' q' /\ listdir fs p' = Raises e)
  \/ (e <> IOError /\
      exists p' q' r, visits fs p q p' q' /\ (sftp_mkdir q' r).1 = Some e)
  \/ (exists p' q' item r,
        visits fs p q p' q' /\ isfile fs (path_join p' item) = true /\
        (sftp_put (path_join p' item) (remote_join q' item) r).1 = Some e).

(** A client whose [mkdir] fails, if at all, with [IOError], and whose [put]
    does not fail. *)
Definition tolerable {R} `{SftpClient R} : Prop :=
  (forall path r, (sftp_mkdir path r).1 = None \/ (sftp_mkdir path r).1 = Some IOError) /\
  (forall l path r, (sftp_put l path r).1 = None).

(** A server that keeps the set of paths it holds: [mkdir] of a path it
    already holds fails with [IOError]; [put] always succeeds. *)
Definition holds (path : string) (paths : list string) : bool :=
  existsb (String.eqb path) paths.

#[export] Instance path_set_client : SftpClient (list string) := {
  sftp_mkdir path paths :=
    if holds path paths then (Some IOError, paths) else (None, path :: paths);
  sftp_put _ path paths := (None, path :: paths)
}.

(** A small build directory: two files, a directory with one file, and an
    entry that is neither a file nor a directory. *)
Definition sample_fs : local_fs := {|
  listdir p :=
    if String.eqb p "dist" then Returns ["index.html"; "images"; "socket"]%string
    else if String.eqb p "dist/images" then Returns ["chip_bg.bmp"]%string
    else Raises IOError;
  isfile p := String.eqb p "dist/index.html" || String.eqb p "dist/images/chip_bg.bmp";
  isdir p := String.eqb p "dist" || String.eqb p "dist/images"
|}.

(** ** Checks on small inputs *)

(** The grid tone without noise and without blocks. *)
Example shade_grid_only : shade [] 0 128 5 = (50, 60, 55).
Proof. reflexivity. Qed.

(** Two overlapping blocks, the pixel on the corner of the second. *)
Example shade_two_blocks :
  shade [Block 0 0 50 50 21; Block 3 3 60 60 40] 4 3 3 = (54, 135, 59).
Proof. reflexivity. Qed.

Example row_size_samples :
  row_size 1 = 4 /\ row_size 2 = 8 /\ row_size 4 = 12 /\ row_size 1024 = 3072.
Proof. repeat split. Qed.

Example pack_negative :
  pack_i (-5) (World [] 0) = (Ok [251; 255; 255; 255], World [] 0) /\
  pack_I (-5) (World [] 0) = (Raise StructError, World [] 0).
Proof. split; reflexivity. Qed.

Example path_join_samples :
  path_join "dist" "images" = "dist/images"%string /\
  path_join "dist/" "images" = "dist/images"%string /\
  path_join "" "images" = "images"%string /\
  path_join "dist" "/etc" = "/etc"%string.
Proof. repeat split. Qed.

Example upload_sample :
  upload_directory sample_fs 5 "dist" "site" (Session ["site"%string] [])
  = (Returns tt,
     Session ["site/images/chip_bg.bmp"; "site/images"; "site/index.html"; "site"]%string
       [Print "Creating remote directory: site";
        Mkdir "site";
        Print "Directory site already exists.";
        Print "Uploading file: dist/index.html -> site/index.html";
        Put "dist/index.html" "site/index.html";
        Print "Creating remote directory: site/images";
        Mkdir "site/images";
        Print "Uploading file: dist/images/chip_bg.bmp -> site/images/chip_bg.bmp";
        Put "dist/images/chip_bg.bmp" "site/images/chip_bg.bmp"]).
Proof. vm_compute. reflexivity. Qed.

Example upload_too_deep :
  (upload_directory sample_fs 1 "dist" "site" (Session ["site"%string] [])).1
  = Raises RecursionError.
Proof. vm_compute. reflexivity. Qed.

Example run_1x1 :
  run (fun _ => 0) 1 1 0 =
  (Ok tt, World ([66; 77; 58; 0; 0; 0; 0; 0; 0; 0; 54; 0; 0; 0;
                  40; 0; 0; 0; 1; 0; 0; 0; 1; 0; 0; 0; 1; 0; 24; 0;
                  0; 0; 0; 0; 4; 0; 0; 0; 19; 11; 0; 0; 19; 11; 0; 0;
                  0; 0; 0; 0; 0; 0; 0; 0] ++ [255; 255; 255; 0]) 251).
Proof. vm_compute. reflexivity. Qed.

(** ** Row stride arithmetic *)

Lemma row_size_div (w : Z) : row_size w = 4 * ((w * 3 + 3) `div` 4).
Proof.
  unfold row_size.
  rewrite <- Z.ldiff_land.
  change (Z.ldiff (w * 3 + 3) 3) with (Z.ldiff (w * 3 + 3) (Z.ones 2)).
  rewrite Z.ldiff_ones_r by lia.
  rewrite Z.shiftl_mul_pow2, Z.shiftr_div_pow2 by lia.
  change (2 ^ 2) with 4. lia.
Qed.

Lemma row_size_bounds (w : Z) : 3 * w <= row_size w < 3 * w + 4.
Proof.
  rewrite row_size_div.
  pose proof (Z.div_mod (w * 3 + 3) 4 ltac:(lia)) as Hd.
  pose proof (Z.mod_pos_bound (w * 3 + 3) 4 ltac:(lia)) as Hm.
  lia.
Qed.

Lemma row_size_aligned (w : Z) : row_size w `mod` 4 = 0.
Proof.
  rewrite row_size_div, Z.mul_comm. apply Z.mod_mul. lia.
Qed.

Lemma row_size_nonneg (w : Z) : 0 <= w -> 0 <= row_size w.
Proof. pose proof (row_size_bounds w). lia. Qed.

(** ** Little-endian packing *)

Lemma le_bytes_length (n : nat) (v : Z) : length (le_bytes n v) = n.
Proof. revert v. induction n as [|n IH]; intros v; simpl; [done | by rewrite IH]. Qed.

Lemma le_bytes_is_byte (n : nat) (v : Z) : Forall is_byte (le_bytes n v).
Proof.
  revert v. induction n as [|n IH]; intros v; simpl; constructor; [| apply IH].
  unfold is_byte. pose proof (Z.mod_pos_bound v 256 ltac:(lia)). lia.
Qed.

Lemma le_unsigned_le_bytes (n : nat) (v : Z) :
  le_unsigned (le_bytes n v) = v `mod` 256 ^ Z.of_nat n.
Proof.
  revert v. induction n as [|n IH]; intros v.
  - simpl. by rewrite Z.mod_1_r.
  - cbn [le_bytes le_unsigned fold_right]. fold (le_unsigned (le_bytes n (v `div` 256))).
    rewrite IH, Nat2Z.inj_succ, Z.pow_succ_r by lia.
    rewrite (Z.rem_mul_r v 256 (256 ^ Z.of_nat n)) by lia. lia.
Qed.

Lemma le_unsigned_pack4 (v : Z) :
  0 <= v < 2 ^ 32 -> le_unsigned (le_bytes 4 v) = v.
Proof.
  intros Hv. rewrite le_unsigned_le_bytes.
  change (256 ^ Z.of_nat 4) with (2 ^ 32). by apply Z.mod_small.
Qed.

Lemma le_signed32_pack4 (v : Z) :
  - 2 ^ 31 <= v < 2 ^ 31 -> le_signed32 (le_bytes 4 (v `mod` 2 ^ 32)) = v.
Proof.
  intros Hv. unfold le_signed32.
  rewrite le_unsigned_pack4 by (apply Z.mod_pos_bound; lia).
  destruct (Z.ltb_spec (v `mod` 2 ^ 32) (2 ^ 31)) as [Hlt | Hge].
  - destruct (Z.lt_ge_cases v 0) as [Hneg | Hpos].
    + rewrite <- (Z.mod_add v 1 (2 ^ 32)) in Hlt by lia.
      rewrite Z.mod_small in Hlt by lia. lia.
    + apply Z.mod_small. lia.
  - destruct (Z.lt_ge_cases v 0) as [Hneg | Hpos].
    + rewrite <- (Z.mod_add v 1 (2 ^ 32)) by lia.
      rewrite Z.mod_small by lia. lia.
    + rewrite Z.mod_small in Hge by lia. lia.
Qed.

(** ** Laws of the effect monad *)

Lemma bind_ok {A B} (m : M A) (k : A -> M B) (w w' : world) (a : A) :
  m w = (Ok a, w') -> bind m k w = k a w'.
Proof. intros H. unfold bind. by rewrite H. Qed.

Lemma bind_raise {A B} (m : M A) (k : A -> M B) (w w' : world) (e : exn) :
  m w = (Raise e, w') -> bind m k w = (Raise e, w').
Proof. intros H. unfold bind. by rewrite H. Qed.

Lemma bind_ext {A B} (m m' : M A) (k k' : A -> M B) (w : world) :
  m w = m' w -> (forall a w', k a w' = k' a w') -> bind m k w = bind m' k' w.
Proof.
  intros Hm Hk. unfold bind. rewrite Hm.
  destruct (m' w) as [[a | e] w']; [apply Hk | done].
Qed.

Lemma for_each_ext {A S} (l : list A) (body body' : A -> S -> M S) (s : S) (w : world) :
  (forall v s' w', body v s' w' = body' v s' w') ->
  for_each l body s w = for_each l body' s w.
Proof.
  intros Hb. revert s w.
  induction l as [|v l IH]; intros s w; simpl; [done |].
  apply bind_ext; [apply Hb | apply IH].
Qed.

(** ** The block loop as a sum *)

Lemma block_step_gain (x y : Z) (r g b : Z) (k : block) :
  block_step x y (r, g, b) k
  = (r + side_gain x y k, g + green_gain x y k, b + side_gain x y k).
Proof.
  unfold block_step, side_gain, green_gain, inside, on_boundary.
  destruct (_ && _); [| f_equal; [f_equal |]; lia].
  destruct (_ || _); f_equal; try f_equal; lia.
Qed.

Lemma fold_block_step (x y : Z) (blocks : list block) (r g b : Z) :
  fold_left (block_step x y) blocks (r, g, b)
  = (r + Zsum (map (side_gain x y) blocks),
     g + Zsum (map (green_gain x y) blocks),
     b + Zsum (map (side_gain x y) blocks)).
Proof.
  revert r g b. induction blocks as [|k blocks IH]; intros r g b;
    cbn [fold_left map Zsum fold_right].
  - f_equal; [f_equal |]; lia.
  - rewrite block_step_gain, IH. unfold Zsum. f_equal; [f_equal |]; lia.
Qed.

Lemma shade_sum (blocks : list block) (n x y : Z) :
  shade blocks n x y
  = (Z.min 255 (20 + n + Zsum (map (side_gain x y) blocks) + grid x y),
     Z.min 255 (30 + n + Zsum (map (green_gain x y) blocks) + grid x y),
     Z.min 255 (25 + n + Zsum (map (side_gain x y) blocks) + grid x y)).
Proof.
  unfold shade, grid. rewrite fold_block_step.
  destruct (_ || _); rewrite ?Z.add_0_r; reflexivity.
Qed.

Lemma Zsum_perm (l l' : list Z) : Permutation l l' -> Zsum l = Zsum l'.
Proof. induction 1; simpl; lia. Qed.

Lemma Zsum_nonneg (l : list Z) : Forall (fun v => 0 <= v) l -> 0 <= Zsum l.
Proof. induction 1; simpl; lia. Qed.

Lemma side_gain_nonneg (x y : Z) (blocks : list block) :
  Forall (fun k => 0 <= color_boost k) blocks ->
  0 <= Zsum (map (side_gain x y) blocks).
Proof.
  intros H. apply Zsum_nonneg, Forall_map.
  eapply Forall_impl; [exact H |]. intros k Hk; simpl in Hk |- *.
  unfold side_gain. destruct (inside k x y); [| lia].
  apply Z.div_pos; lia.
Qed.

Lemma green_gain_nonneg (x y : Z) (blocks : list block) :
  Forall (fun k => 0 <= color_boost k) blocks ->
  0 <= Zsum (map (green_gain x y) blocks).
Proof.
  intros H. apply Zsum_nonneg, Forall_map.
  eapply Forall_impl; [exact H |]. intros k Hk; simpl in Hk |- *.
  unfold green_gain. destruct (inside k x y); [| lia].
  destruct (on_boundary k x y); lia.
Qed.

Lemma grid_cases (x y : Z) : grid x y = 0 \/ grid x y = 30.
Proof. unfold grid. destruct (_ || _); auto. Qed.

(** Every channel [shade] returns fits a byte. *)
Lemma shade_is_byte (blocks : list block) (n x y : Z) :
  Forall (fun k => 0 <= color_boost k) blocks -> 0 <= n ->
  Forall is_byte (pixel_bytes blocks n x y).
Proof.
  intros Hb Hn. unfold pixel_bytes. rewrite shade_sum.
  pose proof (side_gain_nonneg x y blocks Hb).
  pose proof (green_gain_nonneg x y blocks Hb).
  destruct (grid_cases x y) as [Hg | Hg]; rewrite Hg;
    repeat constructor; unfold is_byte; lia.
Qed.

(** Sums over the covering blocks, as the specification phrases them. *)
Lemma side_gain_covering (x y : Z) (blocks : list block) :
  Forall (fun k => 0 <= color_boost k) blocks ->
  Zsum (map (side_gain x y) blocks)
  = Zsum (map (fun k => color_boost k ÷ 2) (covering blocks x y)).
Proof.
  unfold covering. induction 1 as [|k blocks Hk _ IH]; simpl; [done |].
  unfold side_gain at 1. destruct (inside k x y); simpl; rewrite IH; [| done].
  rewrite Z.quot_div_nonneg by lia. done.
Qed.

Lemma green_gain_covering (x y : Z) (blocks : list block) :
  Zsum (map (green_gain x y) blocks)
  = Zsum (map (fun k => color_boost k + (if on_boundary k x y then 40 else 0))
              (covering blocks x y)).
Proof.
  unfold covering. induction blocks as [|k blocks IH]; simpl; [done |].
  unfold green_gain at 1. destruct (inside k x y); simpl; rewrite IH; [| done].
  destruct (on_boundary k x y); lia.
Qed.

Lemma shade_spec (blocks : list block) (n x y : Z) :
  Forall (fun k => 0 <= color_boost k) blocks ->
  shade blocks n x y
  = (spec_red blocks n x y, spec_green blocks n x y, spec_blue blocks n x y).
Proof.
  intros Hb. rewrite shade_sum. unfold spec_red, spec_green, spec_blue.
  by rewrite side_gain_covering, green_gain_covering.
Qed.

Lemma shade_perm (blocks blocks' : list block) (n x y : Z) :
  Permutation blocks blocks' -> shade blocks n x y = shade blocks' n x y.
Proof.
  intros Hp. rewrite !shade_sum.
  rewrite (Zsum_perm _ _ (Permutation_map (side_gain x y) Hp)).
  by rewrite (Zsum_perm _ _ (Permutation_map (green_gain x y) Hp)).
Qed.

(** ** The program, loop by loop *)

Section Loops.

Variable tape : nat -> Z.

Lemma draw_in_range (a b : Z) (i : nat) : a <= b -> a <= draw_in tape a b i <= b.
Proof.
  intros Hab. unfold draw_in.
  pose proof (Z.mod_pos_bound (tape i) (b - a + 1) ltac:(lia)). lia.
Qed.

Lemma randint_ok (a b : Z) (w : world) :
  a <= b ->
  randint tape a b w = (Ok (draw_in tape a b (draws w)), World (written w) (S (draws w))).
Proof.
  intros Hab. unfold randint, draw_in.
  destruct (Z.ltb_spec b a); [lia | done].
Qed.

Lemma randint_empty (a b : Z) (w : world) :
  b < a -> randint tape a b w = (Raise ValueError, w).
Proof.
  intros Hab. unfold randint.
  destruct (Z.ltb_spec b a); [done | lia].
Qed.

(** Each turn of the sampling loop reads five draws and appends one block. *)
Lemma sample_loop_ok (width height : Z) (count a : nat) (acc : list block) (w : world) :
  0 <= width -> 0 <= height ->
  for_each (seq a count)
    (fun _ blocks =>
       bx <- randint tape 0 width ;;
       by_ <- randint tape 0 height ;;
       bw <- randint tape 50 200 ;;
       bh <- randint tape 50 200 ;;
       color_boost <- randint tape 20 60 ;;
       ret (blocks ++ [Block bx by_ bw bh color_boost]))
    acc w
  = (Ok (acc ++ blocks_from tape width height (draws w) count),
     World (written w) (5 * count + draws w)).
Proof.
  intros Hw Hh. revert a acc w.
  induction count as [|count IH]; intros a acc w.
  - simpl. unfold ret. rewrite app_nil_r. by destruct w.
  - cbn [seq for_each blocks_from].
    erewrite bind_ok; cycle 1.
    { erewrite bind_ok by (by apply randint_ok).
      erewrite bind_ok by (by apply randint_ok).
      erewrite bind_ok by (by apply randint_ok).
      erewrite bind_ok by (by apply randint_ok).
      erewrite bind_ok by (by apply randint_ok).
      reflexivity. }
    rewrite IH. cbn [written draws].
    rewrite <- app_assoc.
    replace (5 * S count + draws w)%nat
      with (5 * count + S (S (S (S (S (draws w))))))%nat by lia.
    reflexivity.
Qed.

Lemma sample_blocks_ok (width height : Z) (count : nat) (w : world) :
  0 <= width -> 0 <= height ->
  sample_blocks tape count width height w
  = (Ok (blocks_from tape width height (draws w) count),
     World (written w) (5 * count + draws w)).
Proof. intros Hw Hh. unfold sample_blocks. by rewrite sample_loop_ok. Qed.

Lemma block_at_in_ranges (width height : Z) (i : nat) :
  0 <= width -> 0 <= height ->
  block_in_ranges width height (block_at tape width height i).
Proof.
  intros Hw Hh. unfold block_in_ranges, block_at; cbn [bx by_ bw bh color_boost].
  repeat split; apply draw_in_range; lia.
Qed.

Lemma blocks_from_in_ranges (width height : Z) (i count : nat) :
  0 <= width -> 0 <= height ->
  Forall (block_in_ranges width height) (blocks_from tape width height i count).
Proof.
  intros Hw Hh. revert i. induction count as [|count IH]; intros i; simpl.
  - constructor.
  - constructor; [by apply block_at_in_ranges | apply IH].
Qed.

Lemma blocks_from_length (width height : Z) (i count : nat) :
  length (blocks_from tape width height i count) = count.
Proof. revert i. induction count as [|count IH]; intros i; simpl; [done | by rewrite IH]. Qed.

Lemma blocks_from_boost (width height : Z) (i count : nat) :
  Forall (fun k => 0 <= color_boost k) (blocks_from tape width height i count).
Proof.
  revert i. induction count as [|count IH]; intros i; simpl; constructor; [| apply IH].
  cbn [block_at color_boost].
  apply Z.le_trans with 20; [lia | apply draw_in_range; lia].
Qed.

Lemma setitem_ok (row : list Z) (idx v : Z) (w : world) :
  0 <= idx < Z.of_nat (length row) -> is_byte v ->
  setitem row idx v w = (Ok (<[Z.to_nat idx := v]> row), w).
Proof.
  intros Hi Hv. unfold setitem, in_range, is_byte in *.
  destruct (Z.ltb_spec idx 0); [lia |].
  destruct (Z.leb_spec 0 idx); [| lia].
  destruct (Z.ltb_spec idx (Z.of_nat (length row))); [| lia].
  destruct (Z.leb_spec 0 v); [| lia].
  destruct (Z.ltb_spec v 256); [| lia].
  done.
Qed.

Lemma insert_three (pre tl : list Z) (i : nat) (a0 a1 a2 v0 v1 v2 : Z) :
  length pre = i ->
  <[S (S i) := v2]> (<[S i := v1]> (<[i := v0]> (pre ++ a0 :: a1 :: a2 :: tl)))
  = pre ++ v0 :: v1 :: v2 :: tl.
Proof.
  intros <-.
  rewrite (insert_app_r_alt pre _ (length pre)) by lia.
  rewrite (insert_app_r_alt pre _ (S (length pre))) by lia.
  rewrite (insert_app_r_alt pre _ (S (S (length pre)))) by lia.
  replace (length pre - length pre)%nat with 0%nat by lia.
  replace (S (length pre) - length pre)%nat with 1%nat by lia.
  replace (S (S (length pre)) - length pre)%nat with 2%nat by lia.
  reflexivity.
Qed.

(** One pixel: one draw, three stores at [3x], [3x+1], [3x+2]. *)
Lemma put_pixel_ok (blocks : list block) (y x : Z) (pre tl : list Z) (w : world) :
  0 <= x -> length pre = Z.to_nat (x * 3) ->
  Forall (fun k => 0 <= color_boost k) blocks ->
  put_pixel tape blocks y x (pre ++ 0 :: 0 :: 0 :: tl) w
  = (Ok (pre ++ pixel_bytes blocks (draw_in tape 0 10 (draws w)) x y ++ tl),
     World (written w) (S (draws w))).
Proof.
  intros Hx Hpre Hb. unfold put_pixel.
  erewrite bind_ok by (apply randint_ok; lia).
  pose proof (draw_in_range 0 10 (draws w) ltac:(lia)) as Hn.
  pose proof (shade_is_byte blocks (draw_in tape 0 10 (draws w)) x y Hb ltac:(lia)) as Hs.
  unfold pixel_bytes in *.
  destruct (shade blocks (draw_in tape 0 10 (draws w)) x y) as [[r g] b].
  apply Forall_cons in Hs as [Hbb Hs].
  apply Forall_cons in Hs as [Hgb Hs].
  apply Forall_cons in Hs as [Hrb _].
  erewrite bind_ok; cycle 1.
  { apply setitem_ok; [| done]. rewrite length_app; cbn [length]. lia. }
  erewrite bind_ok; cycle 1.
  { apply setitem_ok; [| done]. rewrite length_insert, length_app; cbn [length]. lia. }
  rewrite setitem_ok; cycle 1.
  { rewrite !length_insert, length_app; cbn [length]. lia. }
  { done. }
  cbn [written draws]. f_equal. f_equal.
  replace (Z.to_nat (x * 3 + 1)) with (S (Z.to_nat (x * 3))) by lia.
  replace (Z.to_nat (x * 3 + 2)) with (S (S (Z.to_nat (x * 3)))) by lia.
  by apply insert_three.
Qed.

Lemma pixel_bytes_length (blocks : list block) (n x y : Z) :
  length (pixel_bytes blocks n x y) = 3%nat.
Proof. unfold pixel_bytes. by destruct (shade blocks n x y) as [[r g] b]. Qed.

Lemma pixels_from_length (blocks : list block) (y x : Z) (i m : nat) :
  length (pixels_from tape blocks y x i m) = (3 * m)%nat.
Proof.
  revert x i. induction m as [|m IH]; intros x i; simpl; [done |].
  rewrite length_app, pixel_bytes_length, IH. lia.
Qed.

(** The [x] loop from column [x], over a row whose first [3x] bytes are
    already set and whose remaining bytes are still zero. *)
Lemma pixel_loop_ok (blocks : list block) (y x : Z) (m pad : nat)
    (pre : list Z) (w : world) :
  0 <= x -> length pre = Z.to_nat (x * 3) ->
  Forall (fun k => 0 <= color_boost k) blocks ->
  for_each (seqZ x (Z.of_nat m)) (put_pixel tape blocks y)
    (pre ++ replicate (3 * m + pad) 0) w
  = (Ok (pre ++ pixels_from tape blocks y x (draws w) m ++ replicate pad 0),
     World (written w) (m + draws w)).
Proof.
  intros Hx Hpre Hb. revert x pre w Hx Hpre.
  induction m as [|m IH]; intros x pre w Hx Hpre.
  - simpl. unfold ret. by destruct w.
  - rewrite Nat2Z.inj_succ, seqZ_cons by lia.
    cbn [for_each pixels_from].
    replace (3 * S m + pad)%nat with (S (S (S (3 * m + pad)))) by lia.
    cbn [replicate].
    erewrite bind_ok by (by apply put_pixel_ok).
    rewrite Z.pred_succ, app_assoc.
    rewrite (IH (Z.succ x)); cbn [written draws].
    + rewrite <- !app_assoc.
      replace (Z.succ x) with (x + 1) by lia.
      do 2 f_equal. lia.
    + lia.
    + rewrite length_app, pixel_bytes_length, Hpre. lia.
Qed.

Lemma row_bytes_length (blocks : list block) (width y : Z) (i : nat) :
  0 <= width ->
  Z.of_nat (length (row_bytes tape blocks width y i)) = row_size width.
Proof.
  intros Hw. unfold row_bytes.
  rewrite length_app, pixels_from_length, length_replicate.
  pose proof (row_size_bounds width). lia.
Qed.

(** One turn of the [y] loop: [width] draws, one row of [row_size width]
    bytes appended to the file. *)
Lemma put_row_ok (blocks : list block) (width y : Z) (w : world) :
  0 <= width ->
  Forall (fun k => 0 <= color_boost k) blocks ->
  put_row tape blocks width y tt w
  = (Ok tt, World (written w ++ row_bytes tape blocks width y (draws w))
                  (Z.to_nat width + draws w)).
Proof.
  intros Hw Hb. unfold put_row, bytearray.
  pose proof (row_size_bounds width) as Hrs.
  destruct (Z.ltb_spec (row_size width) 0); [lia |].
  erewrite bind_ok by reflexivity.
  replace (Z.to_nat (row_size width))
    with (3 * Z.to_nat width + Z.to_nat (row_size width - 3 * width))%nat by lia.
  rewrite <- (Z2Nat.id width) at 1 by lia.
  erewrite bind_ok; cycle 1.
  { apply (pixel_loop_ok blocks y 0 (Z.to_nat width) _ []); [lia | done | done]. }
  reflexivity.
Qed.

Lemma row_loop_ok (blocks : list block) (width y : Z) (m : nat) (w : world) :
  0 <= width ->
  Forall (fun k => 0 <= color_boost k) blocks ->
  for_each (seqZ y (Z.of_nat m)) (put_row tape blocks width) tt w
  = (Ok tt, World (written w ++ rows_from tape blocks width y (draws w) m)
                  (m * Z.to_nat width + draws w)).
Proof.
  intros Hw Hb. revert y w.
  induction m as [|m IH]; intros y w.
  - simpl. unfold ret. rewrite app_nil_r. by destruct w.
  - rewrite Nat2Z.inj_succ, seqZ_cons by lia.
    cbn [for_each rows_from].
    erewrite bind_ok by (by apply put_row_ok).
    rewrite Z.pred_succ, IH; cbn [written draws].
    rewrite <- app_assoc.
    replace (Z.succ y) with (y + 1) by lia.
    do 2 f_equal. lia.
Qed.

End Loops.

(** ** The header *)

Lemma pack_I_ok (v : Z) (w : world) :
  in_range 0 v (2 ^ 32) = true -> pack_I v w = (Ok (le_bytes 4 v), w).
Proof. intros H. unfold pack_I. by rewrite H. Qed.

Lemma pack_I_raise (v : Z) (w : world) :
  in_range 0 v (2 ^ 32) = false -> pack_I v w = (Raise StructError, w).
Proof. intros H. unfold pack_I. by rewrite H. Qed.

Lemma pack_i_ok (v : Z) (w : world) :
  in_range (- 2 ^ 31) v (2 ^ 31) = true ->
  pack_i v w = (Ok (le_bytes 4 (v `mod` 2 ^ 32)), w).
Proof. intros H. unfold pack_i. by rewrite H. Qed.

Lemma pack_i_raise (v : Z) (w : world) :
  in_range (- 2 ^ 31) v (2 ^ 31) = false -> pack_i v w = (Raise StructError, w).
Proof. intros H. unfold pack_i. by rewrite H. Qed.

Lemma pack_H_ok (v : Z) (w : world) :
  in_range 0 v (2 ^ 16) = true -> pack_H v w = (Ok (le_bytes 2 v), w).
Proof. intros H. unfold pack_H. by rewrite H. Qed.

(** [f.write(struct.pack(...))] when the packing succeeds, and when it raises. *)
Lemma emit_ok (p : M (list Z)) (bs : list Z) (w : world) :
  p w = (Ok bs, w) ->
  (x <- p ;; write x) w = (Ok tt, World (written w ++ bs) (draws w)).
Proof. intros H. by erewrite bind_ok by exact H. Qed.

Lemma emit_raise (p : M (list Z)) (e : exn) (w : world) :
  p w = (Raise e, w) -> (x <- p ;; write x) w = (Raise e, w).
Proof. intros H. by erewrite bind_raise by exact H. Qed.

Ltac emit_closed :=
  erewrite bind_ok by
    (apply emit_ok; first [apply pack_I_ok | apply pack_i_ok | apply pack_H_ok];
     reflexivity).

Ltac emit_given H :=
  erewrite bind_ok by
    (apply emit_ok; first [apply pack_I_ok | apply pack_i_ok]; exact H).

Lemma write_header_ok (width height : Z) (w : world) :
  header_fits width height = true ->
  write_header width height w
  = (Ok tt, World (written w ++ header_bytes width height) (draws w)).
Proof.
  unfold header_fits. intros H.
  apply andb_prop in H as [H Hdata].
  apply andb_prop in H as [H Hh].
  apply andb_prop in H as [Hsize Hw].
  unfold write_header.
  erewrite bind_ok by reflexivity.
  emit_given Hsize. emit_closed. emit_closed. emit_closed.
  emit_given Hw. emit_given Hh. emit_closed. emit_closed. emit_closed.
  emit_given Hdata. emit_closed. emit_closed. emit_closed.
  erewrite emit_ok by (apply pack_I_ok; reflexivity).
  cbn [written draws]. rewrite <- !app_assoc. reflexivity.
Qed.

Ltac emit_or_raise c H :=
  destruct c eqn:H;
  [ emit_given H
  | erewrite bind_raise by
      (apply emit_raise; first [apply pack_I_raise | apply pack_i_raise]; exact H);
    cbn [written draws]; rewrite <- ?app_assoc; eexists; reflexivity ].

(** Whatever makes the header unencodable, the signature is already in the
    file when [struct.pack] raises. *)
Lemma write_header_raise (width height : Z) (w : world) :
  header_fits width height = false ->
  exists rest,
    write_header width height w
    = (Raise StructError, World (written w ++ [66; 77] ++ rest) (draws w)).
Proof.
  unfold header_fits. intros H.
  unfold write_header.
  erewrite bind_ok by reflexivity.
  emit_or_raise (in_range 0 (14 + 40 + row_size width * height) (2 ^ 32)) Hsize.
  emit_closed. emit_closed. emit_closed.
  emit_or_raise (in_range (- 2 ^ 31) width (2 ^ 31)) Hw.
  emit_or_raise (in_range (- 2 ^ 31) height (2 ^ 31)) Hh.
  emit_closed. emit_closed. emit_closed.
  emit_or_raise (in_range 0 (row_size width * height) (2 ^ 32)) Hdata.
  discriminate H.
Qed.

Lemma header_bytes_length (width height : Z) :
  length (header_bytes width height) = 54%nat.
Proof. unfold header_bytes. rewrite !length_app, !le_bytes_length. reflexivity. Qed.

Lemma header_bytes_is_byte (width height : Z) :
  Forall is_byte (header_bytes width height).
Proof.
  unfold header_bytes.
  repeat (apply Forall_app; split; [| try apply le_bytes_is_byte]);
    try apply le_bytes_is_byte.
  repeat constructor; unfold is_byte; lia.
Qed.

Lemma encodable_fits (width height : Z) :
  encodable width height -> header_fits width height = true.
Proof.
  intros (Hw & Hh & Hw' & Hh' & Hsize).
  pose proof (row_size_nonneg width Hw).
  assert (0 <= row_size width * height) by lia.
  unfold header_fits, in_range.
  repeat (apply andb_true_intro; split);
    first [apply Z.leb_le | apply Z.ltb_lt]; lia.
Qed.

(** ** The whole call *)

Section Run.

Variable tape : nat -> Z.

(** On encodable dimensions the call returns normally; the file is the
    header followed by the rows in the order [y = 0, 1, ...] and exactly
    [250 + width * height] draws are consumed. *)
Lemma run_ok (width height : Z) (k : nat) :
  encodable width height ->
  run tape width height k
  = (Ok tt,
     World (header_bytes width height
            ++ rows_from tape (sampled_blocks tape width height k) width 0
                 (250 + k) (Z.to_nat height))
           (Z.to_nat height * Z.to_nat width + (250 + k))).
Proof.
  intros Henc. pose proof (encodable_fits _ _ Henc) as Hfit.
  destruct Henc as (Hw & Hh & _).
  unfold run, generate_chip_bg.
  erewrite bind_ok by (by apply write_header_ok).
  erewrite bind_ok by (by apply sample_blocks_ok).
  cbn [written draws app].
  replace (seqZ 0 height) with (seqZ 0 (Z.of_nat (Z.to_nat height)))
    by (f_equal; lia).
  rewrite row_loop_ok by (done || apply blocks_from_boost).
  reflexivity.
Qed.

Lemma pixels_from_lookup (blocks : list block) (y x : Z) (i m j c : nat) :
  (j < m)%nat -> (c < 3)%nat ->
  pixels_from tape blocks y x i m !! (3 * j + c)%nat
  = pixel_bytes blocks (draw_in tape 0 10 (j + i)) (x + Z.of_nat j) y !! c.
Proof.
  revert x i j. induction m as [|m IH]; intros x i j Hj Hc; [lia |].
  cbn [pixels_from]. destruct j as [|j].
  - rewrite lookup_app_l by (rewrite pixel_bytes_length; lia).
    by rewrite Z.add_0_r.
  - rewrite lookup_app_r by (rewrite pixel_bytes_length; lia).
    rewrite pixel_bytes_length.
    replace (3 * S j + c - 3)%nat with (3 * j + c)%nat by lia.
    rewrite IH by lia.
    replace (j + S i)%nat with (S j + i)%nat by lia.
    replace (x + 1 + Z.of_nat j) with (x + Z.of_nat (S j)) by lia.
    reflexivity.
Qed.

Lemma rows_from_length (blocks : list block) (width y : Z) (i m : nat) :
  0 <= width ->
  length (rows_from tape blocks width y i m) = (m * Z.to_nat (row_size width))%nat.
Proof.
  intros Hw. revert y i. induction m as [|m IH]; intros y i; simpl; [done |].
  rewrite length_app, IH.
  pose proof (row_bytes_length tape blocks width y i Hw). lia.
Qed.

(** The [j]-th stride-sized chunk of the pixel data is the row written at
    the [j]-th turn of the [y] loop. *)
Lemma rows_from_slice (blocks : list block) (width y : Z) (i m j : nat) :
  0 <= width -> (j < m)%nat ->
  slice (j * Z.to_nat (row_size width)) (Z.to_nat (row_size width))
        (rows_from tape blocks width y i m)
  = row_bytes tape blocks width (y + Z.of_nat j) (j * Z.to_nat width + i).
Proof.
  intros Hw. revert y i j. induction m as [|m IH]; intros y i j Hj; [lia |].
  pose proof (row_bytes_length tape blocks width y i Hw) as Hlen.
  cbn [rows_from]. unfold slice in *. destruct j as [|j].
  - rewrite Nat.mul_0_l, drop_0, take_app_length' by lia.
    by rewrite Nat.add_0_l, Z.add_0_r.
  - rewrite drop_app_ge by lia.
    replace (S j * Z.to_nat (row_size width)
             - length (row_bytes tape blocks width y i))%nat
      with (j * Z.to_nat (row_size width))%nat by lia.
    rewrite IH by lia. f_equal; lia.
Qed.


Lemma row_bytes_lookup (blocks : list block) (width y : Z) (i j c : nat) :
  (j < Z.to_nat width)%nat -> (c < 3)%nat ->
  row_bytes tape blocks width y i !! (3 * j + c)%nat
  = pixel_bytes blocks (draw_in tape 0 10 (j + i)) (Z.of_nat j) y !! c.
Proof.
  intros Hj Hc. unfold row_bytes.
  rewrite lookup_app_l by (rewrite pixels_from_length; lia).
  by rewrite pixels_from_lookup.
Qed.

Lemma slice_lookup (s : list Z) (off len i : nat) :
  (i < len)%nat -> slice off len s !! i = s !! (off + i)%nat.
Proof. intros Hi. unfold slice. by rewrite lookup_take_lt, lookup_drop. Qed.

(** Where pixel [(x, y)] sits in the file, and what is stored there. *)
Lemma file_pixel (width height : Z) (k : nat) (x y : Z) (c : nat) :
  encodable width height -> 0 <= x < width -> 0 <= y < height -> (c < 3)%nat ->
  written (run tape width height k).2
    !! (Z.to_nat (54 + y * row_size width + 3 * x) + c)%nat
  = pixel_bytes (sampled_blocks tape width height k)
      (noise_at tape width k x y) x y !! c.
Proof.
  intros Henc Hx Hy Hc. rewrite run_ok by done. cbn [snd written].
  destruct Henc as (Hw & Hh & _).
  pose proof (row_size_bounds width) as Hrs.
  rewrite lookup_app_r by (rewrite header_bytes_length; nia).
  rewrite header_bytes_length.
  replace (Z.to_nat (54 + y * row_size width + 3 * x) + c - 54)%nat
    with (Z.to_nat y * Z.to_nat (row_size width) + (3 * Z.to_nat x + c))%nat by nia.
  rewrite <- slice_lookup with (len := Z.to_nat (row_size width)) by lia.
  rewrite rows_from_slice by lia.
  rewrite row_bytes_lookup by lia.
  unfold noise_at, noise_index.
  rewrite !Z2Nat.id, Z.add_0_l by lia.
  do 3 f_equal. nia.
Qed.

(** The whole row of [y] as a slice of the file. *)
Lemma file_row (width height : Z) (k : nat) (y : Z) :
  encodable width height -> 0 <= y < height ->
  slice (Z.to_nat (54 + y * row_size width)) (Z.to_nat (row_size width))
        (written (run tape width height k).2)
  = row_bytes tape (sampled_blocks tape width height k) width y
      (noise_index width k 0 y).
Proof.
  intros Henc Hy. rewrite run_ok by done. cbn [snd written].
  destruct Henc as (Hw & Hh & _).
  pose proof (row_size_bounds width) as Hrs.
  unfold slice.
  rewrite drop_app_ge by (rewrite header_bytes_length; nia).
  rewrite header_bytes_length.
  replace (Z.to_nat (54 + y * row_size width) - 54)%nat
    with (Z.to_nat y * Z.to_nat (row_size width))%nat by nia.
  fold (slice (Z.to_nat y * Z.to_nat (row_size width)) (Z.to_nat (row_size width))
         (rows_from tape (sampled_blocks tape width height k) width 0 (250 + k)
            (Z.to_nat height))).
  rewrite rows_from_slice by lia.
  unfold noise_index. rewrite Z2Nat.id, Z.add_0_l, Z.add_0_r by lia.
  f_equal. nia.
Qed.

Lemma file_length (width height : Z) (k : nat) :
  encodable width height ->
  Z.of_nat (length (written (run tape width height k).2))
  = 14 + 40 + row_size width * height.
Proof.
  intros Henc. rewrite run_ok by done. cbn [snd written].
  destruct Henc as (Hw & Hh & _).
  pose proof (row_size_bounds width) as Hrs.
  rewrite length_app, header_bytes_length, rows_from_length by done. nia.
Qed.

End Run.

(** ** Dimensions *)

Lemma positive_encodable (width height : Z) :
  0 < width -> 0 < height -> 14 + 40 + row_size width * height < 2 ^ 32 ->
  encodable width height.
Proof.
  intros Hw Hh Hsize. pose proof (row_size_bounds width) as Hrs.
  unfold encodable. repeat split; try lia; nia.
Qed.

Lemma pixel_bytes_spec (blocks : list block) (n x y : Z) :
  Forall (fun k => 0 <= color_boost k) blocks ->
  pixel_bytes blocks n x y
  = [spec_blue blocks n x y; spec_green blocks n x y; spec_red blocks n x y].
Proof. intros Hb. unfold pixel_bytes. by rewrite shade_spec. Qed.

Lemma sampled_blocks_boost (tape : nat -> Z) (width height : Z) (k : nat) :
  Forall (fun b => 0 <= color_boost b) (sampled_blocks tape width height k).
Proof. apply blocks_from_boost. Qed.

(** ** The compositing rule *)

(** C1. In a generated file, the three bytes of pixel [(x, y)] are, in the
    order blue, green, red, the ceiling at 255 of: the base tone (20, 30, 25),
    plus the pixel's one noise draw [n], which lies in [0, 10], on all three
    channels, plus for every sampled block whose half-open rectangle holds
    the pixel half its boost (truncating) on red and blue and its full boost
    on green, plus 40 on green where the pixel is on that block's boundary,
    plus 30 on all three channels where [x mod 128 = 0] or [y mod 128 = 0]. *)
Theorem C1_pixel_layers (tape : nat -> Z) (width height : Z) (k : nat) (x y : Z) :
  0 < width -> 0 < height -> 14 + 40 + row_size width * height < 2 ^ 32 ->
  0 <= x < width -> 0 <= y < height ->
  let out := written (run tape width height k).2 in
  let blocks := sampled_blocks tape width height k in
  let n := noise_at tape width k x y in
  let off := Z.to_nat (54 + y * row_size width + 3 * x) in
  (sample_blocks tape 50 width height (World (header_bytes width height) k)).1
    = Ok blocks /\
  0 <= n <= 10 /\
  out !! off = Some (spec_blue blocks n x y) /\
  out !! (off + 1)%nat = Some (spec_green blocks n x y) /\
  out !! (off + 2)%nat = Some (spec_red blocks n x y).
Proof.
  intros Hw Hh Hsize Hx Hy out blocks n off.
  pose proof (positive_encodable _ _ Hw Hh Hsize) as Henc.
  pose proof (sampled_blocks_boost tape width height k) as Hb.
  split; [| split].
  - rewrite sample_blocks_ok by lia. reflexivity.
  - apply draw_in_range. lia.
  - pose proof (file_pixel tape width height k x y 0 Henc Hx Hy ltac:(lia)) as H0.
    pose proof (file_pixel tape width height k x y 1 Henc Hx Hy ltac:(lia)) as H1.
    pose proof (file_pixel tape width height k x y 2 Henc Hx Hy ltac:(lia)) as H2.
    rewrite pixel_bytes_spec in H0, H1, H2 by done.
    rewrite Nat.add_0_r in H0. subst out off. by rewrite H0, H1, H2.
Qed.

Lemma C1_pixel_layers_witness :
  let tape := fun i : nat => Z.of_nat i * 7 in
  let out := written (run tape 3 2 0).2 in
  let blocks := sampled_blocks tape 3 2 0 in
  out !! 69%nat = Some (spec_blue blocks (noise_at tape 3 0 1 1) 1 1) /\
  out !! 70%nat = Some (spec_green blocks (noise_at tape 3 0 1 1) 1 1) /\
  out !! 71%nat = Some (spec_red blocks (noise_at tape 3 0 1 1) 1 1).
Proof.
  intros tape out blocks.
  refine (proj2 (proj2
    (C1_pixel_layers tape 3 2 0 1 1 _ _ _ _ _))); vm_compute; intuition discriminate.
Defined.

(** ** The byte range *)

(** C7. For any list of blocks, of any length, whose boosts are not
    negative, and any noise value that is not negative, the three bytes
    stored for a pixel lie in [0, 255]; and every byte of a generated file
    lies in [0, 255]. *)
Theorem C7_channels_are_bytes (tape : nat -> Z) (blocks : list block)
    (n x y width height : Z) (k : nat) :
  Forall (fun b => 0 <= color_boost b) blocks -> 0 <= n ->
  0 < width -> 0 < height -> 14 + 40 + row_size width * height < 2 ^ 32 ->
  Forall is_byte (pixel_bytes blocks n x y) /\
  Forall is_byte (written (run tape width height k).2).
Proof.
  intros Hb Hn Hw Hh Hsize. split; [by apply shade_is_byte |].
  rewrite run_ok by (by apply positive_encodable). cbn [snd written].
  apply Forall_app; split; [apply header_bytes_is_byte |].
  generalize (250 + k)%nat 0. generalize (Z.to_nat height) as m.
  induction m as [|m IH]; intros i y0; cbn [rows_from]; [constructor |].
  apply Forall_app; split; [| apply IH].
  unfold row_bytes. apply Forall_app; split; [| apply Forall_replicate; unfold is_byte; lia].
  generalize (Z.to_nat width) as c. generalize 0 as x0. revert i.
  intros i x0 c. revert i x0.
  induction c as [|c IHc]; intros i x0; cbn [pixels_from]; [constructor |].
  apply Forall_app; split; [| apply IHc].
  apply shade_is_byte; [apply sampled_blocks_boost |].
  pose proof (draw_in_range tape 0 10 i ltac:(lia)). lia.
Qed.

Lemma C7_channels_are_bytes_witness :
  Forall is_byte (pixel_bytes [Block 0 0 200 200 60; Block 0 0 200 200 60;
                               Block 0 0 200 200 60; Block 0 0 200 200 60;
                               Block 0 0 200 200 60] 10 0 0) /\
  Forall is_byte (written (run (fun _ => 0) 2 2 0).2).
Proof.
  apply (C7_channels_are_bytes (fun _ => 0) _ 10 0 0 2 2 0).
  - repeat constructor; vm_compute; discriminate.
  - lia.
  - lia.
  - lia.
  - vm_compute. reflexivity.
Defined.

(** ** Red and blue move together *)

Lemma shade_blue_red (blocks : list block) (n x y : Z) :
  let '(r, _, b) := shade blocks n x y in r <= b /\ (b < 255 -> b = r + 5).
Proof. rewrite shade_sum. lia. Qed.

(** C10. In a generated file the blue byte of every pixel is at least its
    red byte, and exceeds it by exactly 5 whenever blue is below 255; the
    same holds of [shade] for every block list, noise value and position,
    since each layer after the base adds the same amount to red and blue. *)
Theorem C10_blue_over_red (tape : nat -> Z) (width height : Z) (k : nat) (x y : Z) :
  0 < width -> 0 < height -> 14 + 40 + row_size width * height < 2 ^ 32 ->
  0 <= x < width -> 0 <= y < height ->
  let out := written (run tape width height k).2 in
  let off := Z.to_nat (54 + y * row_size width + 3 * x) in
  (exists r b : Z,
     out !! off = Some b /\ out !! (off + 2)%nat = Some r /\
     r <= b /\ (b < 255 -> b = r + 5)) /\
  (forall (blocks : list block) (n x' y' : Z),
     let '(r, _, b) := shade blocks n x' y' in r <= b /\ (b < 255 -> b = r + 5)).
Proof.
  intros Hw Hh Hsize Hx Hy out off.
  split; [| apply shade_blue_red].
  pose proof (positive_encodable _ _ Hw Hh Hsize) as Henc.
  pose proof (file_pixel tape width height k x y 0 Henc Hx Hy ltac:(lia)) as H0.
  pose proof (file_pixel tape width height k x y 2 Henc Hx Hy ltac:(lia)) as H2.
  rewrite Nat.add_0_r in H0. fold out off in H0, H2.
  pose proof (shade_blue_red (sampled_blocks tape width height k)
                (noise_at tape width k x y) x y) as Hrb.
  unfold pixel_bytes in H0, H2.
  destruct (shade (sampled_blocks tape width height k)
              (noise_at tape width k x y) x y) as [[r g] b].
  exists r, b. by rewrite H0, H2.
Qed.

Lemma C10_blue_over_red_witness :
  let out := written (run (fun i : nat => Z.of_nat i * 7) 3 2 0).2 in
  exists r b : Z,
    out !! 69%nat = Some b /\ out !! 71%nat = Some r /\
    r <= b /\ (b < 255 -> b = r + 5).
Proof.
  refine (proj1 (C10_blue_over_red (fun i : nat => Z.of_nat i * 7) 3 2 0 1 1
                   _ _ _ _ _)); vm_compute; intuition discriminate.
Defined.

(** ** Block order *)

Lemma put_pixel_perm (tape : nat -> Z) (blocks blocks' : list block)
    (y x : Z) (row : list Z) (w : world) :
  Permutation blocks blocks' ->
  put_pixel tape blocks y x row w = put_pixel tape blocks' y x row w.
Proof.
  intros Hp. unfold put_pixel. apply bind_ext; [done |].
  intros n w'. by rewrite (shade_perm blocks blocks' n x y Hp).
Qed.

Lemma put_row_perm (tape : nat -> Z) (blocks blocks' : list block)
    (width y : Z) (u : unit) (w : world) :
  Permutation blocks blocks' ->
  put_row tape blocks width y u w = put_row tape blocks' width y u w.
Proof.
  intros Hp. unfold put_row. apply bind_ext; [done |].
  intros row w'. apply bind_ext; [| done].
  apply for_each_ext. intros x row' w''. by apply put_pixel_perm.
Qed.

(** C9. Permuting the block list changes neither the colour computed for any
    pixel nor anything the row loop does: the same rows are written and the
    same result returned.  The block loop is a sum over the list: every
    block that holds the pixel adds its share, overlapping ones too. *)
Theorem C9_block_order (tape : nat -> Z) (blocks blocks' : list block)
    (width height : Z) (w : world) :
  Permutation blocks blocks' ->
  (forall n x y : Z, shade blocks n x y = shade blocks' n x y) /\
  for_each (seqZ 0 height) (put_row tape blocks width) tt w
  = for_each (seqZ 0 height) (put_row tape blocks' width) tt w /\
  (forall x y r g b : Z,
     fold_left (block_step x y) blocks (r, g, b)
     = (r + Zsum (map (side_gain x y) blocks),
        g + Zsum (map (green_gain x y) blocks),
        b + Zsum (map (side_gain x y) blocks))).
Proof.
  intros Hp. split; [| split].
  - intros n x y. by apply shade_perm.
  - apply for_each_ext. intros y u w'. by apply put_row_perm.
  - intros x y r g b. apply fold_block_step.
Qed.

Lemma C9_block_order_witness :
  let b1 := Block 0 0 50 50 20 in
  let b2 := Block 1 1 60 70 41 in
  let b3 := Block 0 1 200 50 60 in
  for_each (seqZ 0 2) (put_row (fun i : nat => Z.of_nat i) [b1; b2; b3] 2) tt (World [] 0)
  = for_each (seqZ 0 2) (put_row (fun i : nat => Z.of_nat i) [b3; b1; b2] 2) tt (World [] 0).
Proof.
  intros b1 b2 b3.
  refine (proj1 (proj2 (C9_block_order (fun i : nat => Z.of_nat i)
                          [b1; b2; b3] [b3; b1; b2] 2 2 (World [] 0) _))).
  apply Permutation_sym, (Permutation_cons_app [b1; b2] [] b3). simpl.
  apply Permutation_refl.
Defined.

(** ** Same draws, same file *)

Lemma randint_ext (tape tape' : nat -> Z) (a b : Z) (w : world) :
  (forall i, tape i = tape' i) -> randint tape a b w = randint tape' a b w.
Proof. intros Heq. unfold randint. by rewrite Heq. Qed.

(** C8. Two calls with the same dimensions, started after the same number of
    draws, whose random sources deliver the same sequence of draws, end with
    the same outcome and the same bytes in the file. *)
Theorem C8_same_draws_same_file (tape tape' : nat -> Z) (width height : Z) (k : nat) :
  (forall i, tape i = tape' i) ->
  run tape width height k = run tape' width height k.
Proof.
  intros Heq. unfold run, generate_chip_bg.
  apply bind_ext; [done |]. intros _ w.
  apply bind_ext.
  - unfold sample_blocks. apply for_each_ext. intros _ blocks w'.
    repeat (apply bind_ext; [by apply randint_ext | intros ? ?]). done.
  - intros blocks w'. apply for_each_ext. intros y u w''.
    unfold put_row. apply bind_ext; [done |]. intros row w3.
    apply bind_ext; [| done].
    apply for_each_ext. intros x row' w4. unfold put_pixel.
    apply bind_ext; [by apply randint_ext | done].
Qed.

Lemma C8_same_draws_same_file_witness :
  run (fun i : nat => Z.of_nat i + Z.of_nat i) 3 2 0
  = run (fun i : nat => 2 * Z.of_nat i) 3 2 0.
Proof.
  apply (C8_same_draws_same_file
           (fun i : nat => Z.of_nat i + Z.of_nat i) (fun i : nat => 2 * Z.of_nat i)).
  intros i. lia.
Defined.

(** ** Header fields *)

Lemma slice_app_l (a l : list Z) (off len : nat) :
  (off + len <= length a)%nat -> slice off len (a ++ l) = slice off len a.
Proof.
  intros H. unfold slice.
  rewrite drop_app_le by lia.
  rewrite take_app_le by (rewrite length_drop; lia). done.
Qed.

Lemma header_signature (width height : Z) :
  slice 0 2 (header_bytes width height) = [66; 77].
Proof. reflexivity. Qed.

Lemma header_file_size (width height : Z) :
  slice 2 4 (header_bytes width height)
  = le_bytes 4 (14 + 40 + row_size width * height).
Proof. reflexivity. Qed.

Lemma header_info_size (width height : Z) :
  slice 14 4 (header_bytes width height) = le_bytes 4 40.
Proof. reflexivity. Qed.

Lemma header_width (width height : Z) :
  slice 18 4 (header_bytes width height) = le_bytes 4 (width `mod` 2 ^ 32).
Proof. reflexivity. Qed.

Lemma header_height (width height : Z) :
  slice 22 4 (header_bytes width height) = le_bytes 4 (height `mod` 2 ^ 32).
Proof. reflexivity. Qed.

(** C5, within what the 32-bit size field can hold. For positive dimensions
    whose file size [14 + 40 + rowStride * height] is below [2^32], the call
    returns normally and the file starts with "BM"; bytes 14-17 read 40 as an
    unsigned little-endian integer; bytes 18-21 and 22-25 read [width] and
    [height] as signed little-endian integers; bytes 2-5 read
    [14 + 40 + rowStride * height], which is the length of the file. *)
Theorem C5_header_fields (tape : nat -> Z) (width height : Z) (k : nat) :
  0 < width -> 0 < height -> 14 + 40 + row_size width * height < 2 ^ 32 ->
  let res := run tape width height k in
  let out := written res.2 in
  res.1 = Ok tt /\
  slice 0 2 out = [66; 77] /\
  le_unsigned (slice 14 4 out) = 40 /\
  le_signed32 (slice 18 4 out) = width /\
  le_signed32 (slice 22 4 out) = height /\
  le_unsigned (slice 2 4 out) = 14 + 40 + row_size width * height /\
  Z.of_nat (length out) = 14 + 40 + row_size width * height.
Proof.
  intros Hw Hh Hsize res out.
  pose proof (positive_encodable _ _ Hw Hh Hsize) as Henc.
  pose proof (file_length tape width height k Henc) as Hlen.
  subst out res. revert Hlen. rewrite run_ok by done. cbn [fst snd written]. intros Hlen.
  destruct Henc as (_ & _ & Hw' & Hh' & _).
  pose proof (row_size_bounds width) as Hrs.
  rewrite !slice_app_l by (rewrite header_bytes_length; lia).
  rewrite header_signature, header_info_size, header_width, header_height,
    header_file_size.
  split; [reflexivity |]. split; [reflexivity |]. split; [reflexivity |].
  split; [apply le_signed32_pack4; lia |].
  split; [apply le_signed32_pack4; lia |].
  split; [apply le_unsigned_pack4; nia | exact Hlen].
Qed.

Lemma C5_header_fields_witness :
  let out := written (run (fun _ => 0) 3 2 0).2 in
  (run (fun _ => 0) 3 2 0).1 = Ok tt /\
  slice 0 2 out = [66; 77] /\
  le_unsigned (slice 14 4 out) = 40 /\
  le_signed32 (slice 18 4 out) = 3 /\
  le_signed32 (slice 22 4 out) = 2 /\
  le_unsigned (slice 2 4 out) = 14 + 40 + row_size 3 * 2 /\
  Z.of_nat (length out) = 14 + 40 + row_size 3 * 2.
Proof.
  apply (C5_header_fields (fun _ => 0) 3 2 0); [lia | lia | vm_compute; reflexivity].
Defined.

(** C5 as worded, for all positive dimensions, fails where the file size
    does not fit the unsigned 32-bit field: [struct.pack] raises after the
    two signature bytes, so bytes 14-25 do not exist and the length is not
    the declared size. *)
Lemma C5_counterexample :
  0 < 40000 /\
  run (fun _ => 0) 40000 40000 0 = (Raise StructError, World [66; 77] 0) /\
  written (run (fun _ => 0) 40000 40000 0).2 !! 14%nat = None /\
  Z.of_nat (length (written (run (fun _ => 0) 40000 40000 0).2))
  <> 14 + 40 + row_size 40000 * 40000.
Proof. vm_compute. intuition discriminate. Qed.

(** ** Row stride *)

(** C6. For positive width every row the program writes is
    [((width*3)+3) & ~3] bytes long, which is the stride the header sizes are
    computed from and the least multiple of 4 that holds [3 * width] bytes;
    the stride of width 1024 is 3072; and a 1 by 1 call
    returns normally with stride 4 and a 58-byte file that carries the
    signature and declares 58 bytes, whatever the draws. *)
Theorem C6_row_stride (tape : nat -> Z) (blocks : list block) (width y : Z)
    (w : world) :
  0 < width -> Forall (fun b => 0 <= color_boost b) blocks ->
  (exists row,
     put_row tape blocks width y tt w
     = (Ok tt, World (written w ++ row) (Z.to_nat width + draws w)) /\
     Z.of_nat (length row) = Z.land (width * 3 + 3) (Z.lnot 3)) /\
  row_size width = Z.land (width * 3 + 3) (Z.lnot 3) /\
  row_size width `mod` 4 = 0 /\ 3 * width <= row_size width < 3 * width + 4 /\
  row_size 1024 = 3072 /\
  (forall k, exists out,
     run tape 1 1 k = (Ok tt, World out (251 + k)) /\
     row_size 1 = 4 /\ length out = 58%nat /\
     slice 0 2 out = [66; 77] /\ le_unsigned (slice 2 4 out) = 58).
Proof.
  intros Hw Hb. split; [| split; [| split; [| split; [| split]]]].
  - exists (row_bytes tape blocks width y (draws w)). split.
    + apply put_row_ok; [lia | done].
    + rewrite row_bytes_length by lia. reflexivity.
  - reflexivity.
  - apply row_size_aligned.
  - apply row_size_bounds.
  - reflexivity.
  - intros k. eexists. split; [| split; [| split; [| split]]].
    + rewrite run_ok by (apply positive_encodable; [lia | lia | vm_compute; reflexivity]).
      reflexivity.
    + reflexivity.
    + rewrite length_app, header_bytes_length, rows_from_length by lia.
      reflexivity.
    + rewrite slice_app_l by (rewrite header_bytes_length; lia). reflexivity.
    + rewrite slice_app_l by (rewrite header_bytes_length; lia).
      rewrite header_file_size. reflexivity.
Qed.

Lemma C6_row_stride_witness :
  exists row,
    put_row (fun _ => 5) [Block 0 0 50 50 20] 5 0 tt (World [] 0)
    = (Ok tt, World ([] ++ row) (Z.to_nat 5 + 0)) /\
    Z.of_nat (length row) = Z.land (5 * 3 + 3) (Z.lnot 3).
Proof.
  refine (proj1 (C6_row_stride (fun _ => 5) [Block 0 0 50 50 20] 5 0 (World [] 0) _ _)).
  - lia.
  - repeat constructor. vm_compute. discriminate.
Defined.

(** ** Row order *)

(** C3, as the program orders rows. Rows reach the file in the order the
    [y] loop produces them, [y = 0] first: for every [y] the [y]-th
    stride-sized chunk of the pixel data is the row the loop body writes at
    turn [y].  The row of [y = height - 1] is therefore the last chunk, and
    nothing is reversed. *)
Theorem C3_rows_in_loop_order (tape : nat -> Z) (width height : Z) (k : nat) (y : Z) :
  0 < width -> 0 < height -> 14 + 40 + row_size width * height < 2 ^ 32 ->
  0 <= y < height ->
  let out := written (run tape width height k).2 in
  let blocks := sampled_blocks tape width height k in
  let row := row_bytes tape blocks width y (noise_index width k 0 y) in
  (forall pre,
     put_row tape blocks width y tt (World pre (noise_index width k 0 y))
     = (Ok tt, World (pre ++ row) (noise_index width k 0 (y + 1)))) /\
  slice (Z.to_nat (54 + y * row_size width)) (Z.to_nat (row_size width)) out = row.
Proof.
  intros Hw Hh Hsize Hy out blocks row.
  pose proof (positive_encodable _ _ Hw Hh Hsize) as Henc.
  split.
  - intros pre. rewrite put_row_ok by (lia || apply sampled_blocks_boost).
    cbn [written draws]. unfold noise_index. do 2 f_equal. nia.
  - by apply file_row.
Qed.

Lemma C3_rows_in_loop_order_witness :
  let tape := fun _ : nat => 2 in
  slice 62 8 (written (run tape 2 2 0).2)
  = row_bytes tape (sampled_blocks tape 2 2 0) 2 1 (noise_index 2 0 0 1).
Proof.
  intros tape.
  refine (proj2 (C3_rows_in_loop_order tape 2 2 0 1 _ _ _ _));
    vm_compute; intuition discriminate.
Defined.

(** C3 as worded fails: in a 2 by 2 file the first row of the pixel data is
    the row of [y = 0], which differs from the row of [y = height - 1]. *)
Lemma C3_counterexample :
  let tape := fun _ : nat => 2 in
  let out := written (run tape 2 2 0).2 in
  let blocks := sampled_blocks tape 2 2 0 in
  slice 54 8 out = row_bytes tape blocks 2 0 (noise_index 2 0 0 0) /\
  slice 54 8 out = [57; 62; 52; 57; 62; 52; 0; 0] /\
  row_bytes tape blocks 2 1 (noise_index 2 0 0 1) = [57; 62; 52; 27; 32; 22; 0; 0] /\
  slice 54 8 out <> row_bytes tape blocks 2 1 (noise_index 2 0 0 1).
Proof. vm_compute. intuition discriminate. Qed.

(** ** Block sampling *)

(** C4, with the ranges [randint] has. Fifty blocks are sampled, from 250
    draws, before any pixel is generated; each has [x] in [0, width] and [y]
    in [0, height], both ends included, extents in [50, 200] and boost in
    [20, 60]. *)
Theorem C4_block_sampling (tape : nat -> Z) (width height : Z) (w : world) :
  0 <= width -> 0 <= height ->
  exists blocks,
    sample_blocks tape 50 width height w
    = (Ok blocks, World (written w) (250 + draws w)) /\
    length blocks = 50%nat /\
    Forall (block_in_ranges width height) blocks.
Proof.
  intros Hw Hh. exists (blocks_from tape width height (draws w) 50).
  split; [| split].
  - by rewrite sample_blocks_ok.
  - apply blocks_from_length.
  - by apply blocks_from_in_ranges.
Qed.

Lemma C4_block_sampling_witness :
  exists blocks,
    sample_blocks (fun i : nat => Z.of_nat i) 50 4 3 (World [] 0)
    = (Ok blocks, World [] 250) /\
    length blocks = 50%nat /\
    Forall (block_in_ranges 4 3) blocks.
Proof.
  apply (C4_block_sampling (fun i : nat => Z.of_nat i) 4 3 (World [] 0)); lia.
Defined.

(** C4 as worded fails: a block's corner can sit on [x = width] and
    [y = height], outside the half-open ranges. *)
Lemma C4_counterexample :
  exists blocks w,
    sample_blocks (fun _ => 2) 50 2 2 (World [] 0) = (Ok blocks, w) /\
    blocks !! 0%nat = Some (Block 2 2 52 52 22) /\
    ~ (bx (Block 2 2 52 52 22) < 2) /\ ~ (by_ (Block 2 2 52 52 22) < 2).
Proof.
  eexists. eexists. split; [vm_compute; reflexivity |].
  split; [reflexivity |]. split; vm_compute; intros H; discriminate H.
Qed.

(** ** Dimensions that are not positive *)

Lemma sample_blocks_raise (tape : nat -> Z) (width height : Z) (w : world) :
  width < 0 \/ height < 0 ->
  exists d, sample_blocks tape 50 width height w
            = (Raise ValueError, World (written w) d).
Proof.
  intros Hneg. unfold sample_blocks.
  change (seq 0 50) with (0%nat :: seq 1 49). cbn [for_each].
  destruct (Z.lt_ge_cases width 0) as [Hw | Hw].
  - exists (draws w). erewrite bind_raise; [destruct w; reflexivity |].
    erewrite bind_raise; [reflexivity |]. by apply randint_empty.
  - exists (S (draws w)). erewrite bind_raise; [reflexivity |].
    erewrite bind_ok by (by apply randint_ok).
    erewrite bind_raise; [reflexivity |]. apply randint_empty. lia.
Qed.

Lemma degenerate_encodable (width height : Z) :
  0 <= width < 2 ^ 31 -> 0 <= height < 2 ^ 31 -> width <= 0 \/ height <= 0 ->
  encodable width height.
Proof.
  intros Hw Hh Hz. unfold encodable.
  assert (row_size width * height = 0) as ->; [| lia].
  destruct Hz as [Hz | Hz].
  - assert (width = 0) as -> by lia. reflexivity.
  - assert (height = 0) as -> by lia. lia.
Qed.

Lemma rows_from_degenerate (tape : nat -> Z) (blocks : list block)
    (width height y : Z) (i : nat) :
  0 <= width -> width <= 0 \/ height <= 0 ->
  rows_from tape blocks width y i (Z.to_nat height) = [].
Proof.
  intros Hw Hz. apply length_zero_iff_nil.
  rewrite rows_from_length by done.
  destruct Hz as [Hz | Hz].
  - assert (width = 0) as -> by lia.
    change (Z.to_nat (row_size 0)) with 0%nat. lia.
  - replace (Z.to_nat height) with 0%nat by lia. reflexivity.
Qed.

(** C2, as the program behaves. There is no dimension check and no
    [InvalidDimensions] error: whenever [width <= 0] or [height <= 0] the
    signature bytes "BM" are written first.  If a dimension is negative the
    call then fails with [struct.error] or [ValueError]; if none is negative
    (one is zero, both below [2^31]) the call returns normally, having
    written exactly the 54-byte header and consumed the 250 block draws. *)
Theorem C2_no_dimension_check (tape : nat -> Z) (width height : Z) (k : nat) :
  width <= 0 \/ height <= 0 ->
  exists r out d,
    run tape width height k = (r, World out d) /\
    slice 0 2 out = [66; 77] /\
    (width < 0 \/ height < 0 -> r = Raise StructError \/ r = Raise ValueError) /\
    (0 <= width < 2 ^ 31 -> 0 <= height < 2 ^ 31 ->
     r = Ok tt /\ out = header_bytes width height /\ d = (250 + k)%nat).
Proof.
  intros Hz. destruct (header_fits width height) eqn:Hfit.
  - destruct (Z.lt_ge_cases width 0) as [Hw | Hw];
      [| destruct (Z.lt_ge_cases height 0) as [Hh | Hh]].
    1, 2: destruct (sample_blocks_raise tape width height
                      (World ([] ++ header_bytes width height) k)
                      ltac:(lia)) as [d Hd];
      exists (Raise ValueError), (header_bytes width height), d;
      (split; [| split; [reflexivity | split; [by right | lia]]]);
      unfold run, generate_chip_bg;
      erewrite bind_ok by (by apply write_header_ok);
      erewrite bind_raise by exact Hd; reflexivity.
    assert (encodable width height) as Henc.
    { unfold header_fits, in_range in Hfit.
      apply andb_prop in Hfit as [Hfit _].
      apply andb_prop in Hfit as [Hfit Hh'].
      apply andb_prop in Hfit as [_ Hw'].
      apply andb_prop in Hw' as [_ Hw'%Z.ltb_lt].
      apply andb_prop in Hh' as [_ Hh'%Z.ltb_lt].
      apply degenerate_encodable; lia. }
    exists (Ok tt), (header_bytes width height), (250 + k)%nat.
    split; [| split; [reflexivity | split; [lia | done]]].
    rewrite run_ok by done.
    rewrite rows_from_degenerate, app_nil_r by done.
    do 2 f_equal. lia.
  - destruct (write_header_raise width height (World [] k) Hfit) as [rest Hrest].
    exists (Raise StructError), ([66; 77] ++ rest), k.
    split; [| split; [reflexivity | split; [by left |]]].
    + unfold run, generate_chip_bg. erewrite bind_raise by exact Hrest. reflexivity.
    + intros Hw Hh.
      rewrite (encodable_fits _ _ (degenerate_encodable _ _ Hw Hh Hz)) in Hfit.
      discriminate Hfit.
Qed.

Lemma C2_no_dimension_check_witness :
  exists r out d,
    run (fun _ => 0) 0 5 0 = (r, World out d) /\
    slice 0 2 out = [66; 77] /\
    (0 < 0 \/ 5 < 0 -> r = Raise StructError \/ r = Raise ValueError) /\
    (0 <= 0 < 2 ^ 31 -> 0 <= 5 < 2 ^ 31 ->
     r = Ok tt /\ out = header_bytes 0 5 /\ d = (250 + 0)%nat).
Proof.
  apply (C2_no_dimension_check (fun _ => 0) 0 5 0). left. lia.
Defined.

(** C2 as worded fails both ways: with [width = 0] the call returns normally
    with a 54-byte file, and with [height = -5] it fails with [struct.error]
    only after "BM" is in the file. *)
Lemma C2_counterexample :
  run (fun _ => 0) 0 5 0 = (Ok tt, World (header_bytes 0 5) 250) /\
  length (header_bytes 0 5) = 54%nat /\
  run (fun _ => 0) 1024 (-5) 0 = (Raise StructError, World [66; 77] 0).
Proof. vm_compute. auto. Qed.

(** * Further properties of [generate_chip_bg] *)

(** ** Every way the call can end *)

Ltac emit_or_stop c H n :=
  destruct c eqn:H;
  [ emit_given H
  | erewrite bind_raise by
      (apply emit_raise; first [apply pack_I_raise | apply pack_i_raise]; exact H);
    exists n; split; [lia |];
    cbn [written draws]; rewrite <- ?app_assoc; reflexivity ].

(** When [struct.pack] raises, the file holds the header up to the field
    that did not fit: 2, 18, 22 or 34 bytes of it. *)
Lemma write_header_stops (width height : Z) (w : world) :
  header_fits width height = false ->
  exists n : nat,
    (2 <= n < 54)%nat /\
    write_header width height w
    = (Raise StructError,
       World (written w ++ take n (header_bytes width height)) (draws w)).
Proof.
  unfold header_fits. intros H.
  unfold write_header.
  erewrite bind_ok by reflexivity.
  emit_or_stop (in_range 0 (14 + 40 + row_size width * height) (2 ^ 32)) Hsize 2%nat.
  emit_closed. emit_closed. emit_closed.
  emit_or_stop (in_range (- 2 ^ 31) width (2 ^ 31)) Hw 18%nat.
  emit_or_stop (in_range (- 2 ^ 31) height (2 ^ 31)) Hh 22%nat.
  emit_closed. emit_closed. emit_closed.
  emit_or_stop (in_range 0 (row_size width * height) (2 ^ 32)) Hdata 34%nat.
  discriminate H.
Qed.

(** With a negative dimension the first turn of the sampling loop raises:
    at the first draw if the width is negative, at the second otherwise. *)
Lemma sample_blocks_stops (tape : nat -> Z) (width height : Z) (w : world) :
  width < 0 \/ height < 0 ->
  sample_blocks tape 50 width height w
  = (Raise ValueError,
     World (written w) (if width <? 0 then draws w else S (draws w))).
Proof.
  intros Hneg. unfold sample_blocks.
  change (seq 0 50) with (0%nat :: seq 1 49). cbn [for_each].
  destruct (Z.ltb_spec width 0) as [Hw | Hw].
  - erewrite bind_raise; [destruct w; reflexivity |].
    erewrite bind_raise; [reflexivity |]. by apply randint_empty.
  - erewrite bind_raise; [reflexivity |].
    erewrite bind_ok by (by apply randint_ok).
    erewrite bind_raise; [reflexivity |]. apply randint_empty. lia.
Qed.

Lemma fits_nonneg_encodable (width height : Z) :
  header_fits width height = true -> 0 <= width -> 0 <= height ->
  encodable width height.
Proof.
  unfold header_fits, in_range. intros Hfit Hw Hh.
  apply andb_prop in Hfit as [Hfit _].
  apply andb_prop in Hfit as [Hfit Hh'].
  apply andb_prop in Hfit as [Hsize Hw'].
  apply andb_prop in Hsize as [_ Hsize%Z.ltb_lt].
  apply andb_prop in Hw' as [_ Hw'%Z.ltb_lt].
  apply andb_prop in Hh' as [_ Hh'%Z.ltb_lt].
  unfold encodable. lia.
Qed.

(** The three ways a call ends. *)
Lemma run_cases (tape : nat -> Z) (width height : Z) (k : nat) :
  (header_fits width height = false /\
   exists n : nat, (2 <= n < 54)%nat /\
     run tape width height k
     = (Raise StructError, World (take n (header_bytes width height)) k))
  \/ (header_fits width height = true /\ (width < 0 \/ height < 0) /\
      run tape width height k
      = (Raise ValueError,
         World (header_bytes width height) (if width <? 0 then k else S k)))
  \/ (encodable width height /\
      run tape width height k
      = (Ok tt,
         World (header_bytes width height
                ++ rows_from tape (sampled_blocks tape width height k) width 0
                     (250 + k) (Z.to_nat height))
               (Z.to_nat height * Z.to_nat width + (250 + k)))).
Proof.
  destruct (header_fits width height) eqn:Hfit.
  - destruct (Z.lt_ge_cases width 0) as [Hw | Hw];
      [| destruct (Z.lt_ge_cases height 0) as [Hh | Hh]].
    1, 2: right; left; split; [done | split; [lia |]];
      unfold run, generate_chip_bg;
      erewrite bind_ok by (by apply write_header_ok);
      erewrite bind_raise by (apply sample_blocks_stops; lia); reflexivity.
    right; right.
    pose proof (fits_nonneg_encodable _ _ Hfit Hw Hh) as Henc.
    split; [done | by apply run_ok].
  - left. split; [done |].
    destruct (write_header_stops width height (World [] k) Hfit) as (n & Hn & Hrun).
    exists n. split; [done |].
    unfold run, generate_chip_bg. erewrite bind_raise by exact Hrun. reflexivity.
Qed.

(** X1. The call returns normally exactly on the dimensions the header can
    hold (both at least 0 and below [2^31], file size below [2^32]); it
    fails with [struct.error] exactly when a header field does not fit, and
    with [ValueError] exactly when the header fits but a dimension is
    negative.  Nothing else can happen: in particular no row store is ever
    out of range. *)
Theorem run_outcome (tape : nat -> Z) (width height : Z) (k : nat) :
  ((run tape width height k).1 = Ok tt <-> encodable width height) /\
  ((run tape width height k).1 = Raise StructError
   <-> header_fits width height = false) /\
  ((run tape width height k).1 = Raise ValueError
   <-> header_fits width height = true /\ (width < 0 \/ height < 0)) /\
  (run tape width height k).1 <> Raise IndexError.
Proof.
  destruct (run_cases tape width height k)
    as [(Hfit & n & Hn & Hrun) | [(Hfit & Hneg & Hrun) | (Henc & Hrun)]];
    rewrite Hrun; cbn [fst].
  - split_and!; [split | split | split |]; try done.
    + intros Henc. apply encodable_fits in Henc. congruence.
    + intros [Hfit' _]. congruence.
  - split_and!; [split | split | split |]; try done; try congruence.
    intros (Hw & Hh & _). lia.
  - pose proof (encodable_fits _ _ Henc) as Hfit.
    split_and!; [split | split | split |]; try done; try congruence.
    intros [_ Hneg]. destruct Henc as (Hw & Hh & _). lia.
Qed.

(** X2. Whenever the call fails, what is in the file is a prefix of the header,
    between 2 and 54 bytes long, and at most one draw has been consumed:
    no block is kept and no pixel row is ever partially written. *)
Theorem failure_leaves_header_prefix (tape : nat -> Z) (width height : Z)
    (k : nat) (e : exn) :
  (run tape width height k).1 = Raise e ->
  exists n : nat,
    (2 <= n <= 54)%nat /\
    written (run tape width height k).2 = take n (header_bytes width height) /\
    (draws (run tape width height k).2 <= S k)%nat.
Proof.
  destruct (run_cases tape width height k)
    as [(Hfit & n & Hn & Hrun) | [(Hfit & Hneg & Hrun) | (Henc & Hrun)]];
    rewrite Hrun; cbn [fst snd written draws]; intros He.
  - exists n. split; [lia | split; [done | lia]].
  - exists 54%nat. split; [lia | split].
    + by rewrite <- (header_bytes_length width height), firstn_all.
    + destruct (width <? 0); lia.
  - discriminate He.
Qed.

Lemma failure_leaves_header_prefix_witness :
  exists n : nat,
    (2 <= n <= 54)%nat /\
    written (run (fun _ => 7) 1024 (-5) 3).2 = take n (header_bytes 1024 (-5)) /\
    (draws (run (fun _ => 7%Z) 1024%Z (-5)%Z 3).2 <= 4)%nat.
Proof.
  apply (failure_leaves_header_prefix (fun _ => 7) 1024 (-5) 3 StructError).
  vm_compute. reflexivity.
Defined.

(** ** Which draws a call reads *)

Lemma draw_in_agree (tape tape' : nat -> Z) (a b : Z) (i : nat) :
  tape i = tape' i -> draw_in tape a b i = draw_in tape' a b i.
Proof. intros H. unfold draw_in. by rewrite H. Qed.

Lemma blocks_from_agree (tape tape' : nat -> Z) (width height : Z) (i count : nat) :
  (forall j, (i <= j < i + 5 * count)%nat -> tape j = tape' j) ->
  blocks_from tape width height i count = blocks_from tape' width height i count.
Proof.
  revert i. induction count as [|count IH]; intros i Hagree; [done |].
  cbn [blocks_from]. f_equal.
  - unfold block_at.
    f_equal; apply draw_in_agree, Hagree; lia.
  - apply IH. intros j Hj. apply Hagree. lia.
Qed.

Lemma pixels_from_agree (tape tape' : nat -> Z) (blocks : list block)
    (y x : Z) (i m : nat) :
  (forall j, (i <= j < i + m)%nat -> tape j = tape' j) ->
  pixels_from tape blocks y x i m = pixels_from tape' blocks y x i m.
Proof.
  revert x i. induction m as [|m IH]; intros x i Hagree; [done |].
  cbn [pixels_from]. f_equal.
  - f_equal. apply draw_in_agree, Hagree. lia.
  - apply IH. intros j Hj. apply Hagree. lia.
Qed.

Lemma rows_from_agree (tape tape' : nat -> Z) (blocks : list block)
    (width y : Z) (i m : nat) :
  (forall j, (i <= j < i + m * Z.to_nat width)%nat -> tape j = tape' j) ->
  rows_from tape blocks width y i m = rows_from tape' blocks width y i m.
Proof.
  revert y i. induction m as [|m IH]; intros y i Hagree; [done |].
  cbn [rows_from]. f_equal.
  - unfold row_bytes. f_equal. apply pixels_from_agree.
    intros j Hj. apply Hagree. lia.
  - apply IH. intros j Hj. apply Hagree. lia.
Qed.

(** X3. A call started after [k] draws reads the tape only at positions
    [k .. k + 250 + width*height - 1]: two tapes that agree there give the
    same outcome and the same file, however they differ elsewhere.  It
    never consumes more than that many draws, and consumes exactly that many
    when it returns normally. *)
Theorem run_reads_its_window (tape tape' : nat -> Z) (width height : Z) (k : nat) :
  (forall i, (k <= i < k + 250 + Z.to_nat width * Z.to_nat height)%nat ->
             tape i = tape' i) ->
  run tape width height k = run tape' width height k /\
  (draws (run tape width height k).2
   <= k + 250 + Z.to_nat width * Z.to_nat height)%nat /\
  ((run tape width height k).1 = Ok tt ->
   draws (run tape width height k).2
   = (k + 250 + Z.to_nat width * Z.to_nat height)%nat).
Proof.
  intros Hagree.
  destruct (run_cases tape width height k)
    as [(Hfit & n & Hn & Hrun) | [(Hfit & Hneg & Hrun) | (Henc & Hrun)]].
  - rewrite Hrun; cbn [fst snd draws]. split; [| split; [lia | done]].
    destruct (write_header_stops width height (World [] k) Hfit) as (n' & _ & Hhdr).
    rewrite <- Hrun. unfold run, generate_chip_bg.
    by rewrite !(bind_raise _ _ _ _ _ Hhdr).
  - rewrite Hrun; cbn [fst snd draws]. split; [| split; [| done]].
    + destruct (run_cases tape' width height k)
        as [(Hfit' & _) | [(_ & _ & Hrun') | (Henc' & _)]];
        [congruence | by rewrite Hrun' |].
      destruct Henc' as (Hw & Hh & _). lia.
    + destruct (width <? 0); lia.
  - rewrite Hrun, (run_ok tape' _ _ _ Henc); cbn [fst snd draws].
    split; [| split; [lia | intros _; lia]].
    assert (sampled_blocks tape width height k = sampled_blocks tape' width height k)
      as <-.
    { apply blocks_from_agree. intros j Hj. apply Hagree. lia. }
    rewrite (rows_from_agree tape tape'); [done |].
    intros j Hj. apply Hagree. lia.
Qed.

Lemma run_reads_its_window_witness :
  let tape := fun i : nat => Z.of_nat i in
  let tape' := fun i : nat => if (i <? 254)%nat then Z.of_nat i else 99 in
  run tape 2 2 0 = run tape' 2 2 0 /\
  (draws (run tape 2 2 0).2 <= 0 + 250 + Z.to_nat 2 * Z.to_nat 2)%nat /\
  ((run tape 2 2 0).1 = Ok tt ->
   draws (run tape 2 2 0).2 = (0 + 250 + Z.to_nat 2 * Z.to_nat 2)%nat).
Proof.
  intros tape tape'.
  apply (run_reads_its_window tape tape' 2 2 0).
  intros i Hi. unfold tape, tape'.
  destruct (Nat.ltb_spec i 254); [reflexivity |].
  simpl in Hi. lia.
Defined.

(** X4. The bytes of one pixel depend on the tape only through the 250 block
    draws and that pixel's own noise draw: two tapes that agree on those
    251 positions give the same three bytes at the pixel, whatever the
    other pixels' draws are. *)
Theorem pixel_reads_its_draw (tape tape' : nat -> Z) (width height : Z) (k : nat)
    (x y : Z) (c : nat) :
  0 < width -> 0 < height -> 14 + 40 + row_size width * height < 2 ^ 32 ->
  0 <= x < width -> 0 <= y < height -> (c < 3)%nat ->
  (forall i, (k <= i < k + 250)%nat -> tape i = tape' i) ->
  tape (noise_index width k x y) = tape' (noise_index width k x y) ->
  let off := Z.to_nat (54 + y * row_size width + 3 * x) in
  written (run tape width height k).2 !! (off + c)%nat
  = written (run tape' width height k).2 !! (off + c)%nat.
Proof.
  intros Hw Hh Hsize Hx Hy Hc Hblocks Hnoise off.
  pose proof (positive_encodable _ _ Hw Hh Hsize) as Henc.
  subst off. rewrite !file_pixel by done.
  assert (sampled_blocks tape width height k = sampled_blocks tape' width height k)
    as <-.
  { apply blocks_from_agree. intros j Hj. apply Hblocks. lia. }
  unfold noise_at. by rewrite (draw_in_agree tape tape' 0 10 _ Hnoise).
Qed.

Lemma pixel_reads_its_draw_witness :
  let tape := fun i : nat => Z.of_nat i in
  let tape' := fun i : nat => if (i =? 250)%nat then 5 else Z.of_nat i in
  written (run tape 2 2 0).2 !! (Z.to_nat (54 + 1 * row_size 2 + 3 * 1) + 2)%nat
  = written (run tape' 2 2 0).2 !! (Z.to_nat (54 + 1 * row_size 2 + 3 * 1) + 2)%nat.
Proof.
  intros tape tape'.
  apply (pixel_reads_its_draw tape tape' 2 2 0 1 1 2);
    try lia; try (vm_compute; intuition discriminate).
  intros i Hi. unfold tape, tape'.
  destruct (Nat.eqb_spec i 250); [lia | reflexivity].
Defined.

(** ** Row padding *)

Lemma row_size_padding (w : Z) : row_size w = 3 * w + w `mod` 4.
Proof. rewrite row_size_div. Z.div_mod_to_equations. lia. Qed.

(** X5. Every row ends with exactly [width mod 4] padding bytes, and each of
    them is zero in the file. *)
Theorem row_padding_is_zero (tape : nat -> Z) (width height : Z) (k : nat) (y j : Z) :
  0 < width -> 0 < height -> 14 + 40 + row_size width * height < 2 ^ 32 ->
  0 <= y < height -> 3 * width <= j < row_size width ->
  row_size width - 3 * width = width `mod` 4 /\
  written (run tape width height k).2 !! Z.to_nat (54 + y * row_size width + j)
  = Some 0.
Proof.
  intros Hw Hh Hsize Hy Hj. split; [rewrite row_size_padding; lia |].
  pose proof (positive_encodable _ _ Hw Hh Hsize) as Henc.
  replace (Z.to_nat (54 + y * row_size width + j))
    with (Z.to_nat (54 + y * row_size width) + Z.to_nat j)%nat by nia.
  rewrite <- slice_lookup with (len := Z.to_nat (row_size width)) by lia.
  rewrite file_row by (done || lia).
  unfold row_bytes.
  rewrite lookup_app_r by (rewrite pixels_from_length; lia).
  apply lookup_replicate_2. rewrite pixels_from_length. lia.
Qed.

Lemma row_padding_is_zero_witness :
  row_size 5 - 3 * 5 = 5 `mod` 4 /\
  written (run (fun i : nat => Z.of_nat i) 5 2 0).2
    !! Z.to_nat (54 + 1 * row_size 5 + 15) = Some 0.
Proof.
  apply (row_padding_is_zero (fun i : nat => Z.of_nat i) 5 2 0 1 15);
    vm_compute; intuition discriminate.
Defined.

(** ** The fields of the header that do not depend on the image *)

(** X6. In every file the call completes, the reserved field is 0, the data
    offset is 54, there is 1 plane of 24 bits per pixel, no compression, the
    image size is [rowStride * height], both resolutions are 2835 and both
    colour counts are 0; the data offset plus the image size is the length
    of the file. *)
Theorem header_fixed_fields (tape : nat -> Z) (width height : Z) (k : nat) :
  encodable width height ->
  let out := written (run tape width height k).2 in
  le_unsigned (slice 6 4 out) = 0 /\
  le_unsigned (slice 10 4 out) = 54 /\
  le_unsigned (slice 26 2 out) = 1 /\
  le_unsigned (slice 28 2 out) = 24 /\
  le_unsigned (slice 30 4 out) = 0 /\
  le_unsigned (slice 34 4 out) = row_size width * height /\
  le_signed32 (slice 38 4 out) = 2835 /\
  le_signed32 (slice 42 4 out) = 2835 /\
  le_unsigned (slice 46 4 out) = 0 /\
  le_unsigned (slice 50 4 out) = 0 /\
  le_unsigned (slice 10 4 out) + le_unsigned (slice 34 4 out) = Z.of_nat (length out).
Proof.
  intros Henc out.
  pose proof (file_length tape width height k Henc) as Hlen. fold out in Hlen.
  subst out. revert Hlen. rewrite run_ok by done. cbn [snd written]. intros Hlen.
  destruct Henc as (Hw & Hh & _ & _ & Hsize).
  pose proof (row_size_nonneg width Hw) as Hrs.
  rewrite !slice_app_l by (rewrite header_bytes_length; lia).
  assert (le_unsigned (slice 34 4 (header_bytes width height))
          = row_size width * height) as Hdata.
  { change (slice 34 4 (header_bytes width height))
      with (le_bytes 4 (row_size width * height)).
    apply le_unsigned_pack4. nia. }
  rewrite Hdata.
  split_and!; try reflexivity. rewrite Hlen.
  change (le_unsigned (slice 10 4 (header_bytes width height))) with 54. lia.
Qed.

Lemma header_fixed_fields_witness :
  let out := written (run (fun _ => 3) 3 2 0).2 in
  le_unsigned (slice 6 4 out) = 0 /\
  le_unsigned (slice 10 4 out) = 54 /\
  le_unsigned (slice 26 2 out) = 1 /\
  le_unsigned (slice 28 2 out) = 24 /\
  le_unsigned (slice 30 4 out) = 0 /\
  le_unsigned (slice 34 4 out) = row_size 3 * 2 /\
  le_signed32 (slice 38 4 out) = 2835 /\
  le_signed32 (slice 42 4 out) = 2835 /\
  le_unsigned (slice 46 4 out) = 0 /\
  le_unsigned (slice 50 4 out) = 0 /\
  le_unsigned (slice 10 4 out) + le_unsigned (slice 34 4 out) = Z.of_nat (length out).
Proof.
  apply (header_fixed_fields (fun _ => 3) 3 2 0).
  vm_compute. intuition discriminate.
Defined.

(** ** Order and floor of the channels *)

Lemma Zsum_map_le {A} (f g : A -> Z) (l : list A) :
  Forall (fun a => f a <= g a) l -> Zsum (map f l) <= Zsum (map g l).
Proof. induction 1; simpl; lia. Qed.

Lemma side_le_green (x y : Z) (blocks : list block) :
  Forall (fun k => 0 <= color_boost k) blocks ->
  Zsum (map (side_gain x y) blocks) <= Zsum (map (green_gain x y) blocks).
Proof.
  intros Hb. apply Zsum_map_le.
  eapply Forall_impl; [exact Hb |]. intros k Hk; simpl in Hk |- *.
  unfold side_gain, green_gain. destruct (inside k x y); [| lia].
  assert (color_boost k `div` 2 <= color_boost k)
    by (Z.div_mod_to_equations; lia).
  destruct (on_boundary k x y); lia.
Qed.

Lemma shade_order (blocks : list block) (n x y : Z) :
  Forall (fun k => 0 <= color_boost k) blocks -> 0 <= n ->
  let '(r, g, b) := shade blocks n x y in
  r <= b <= g /\ 20 + grid x y <= r /\ 30 + grid x y <= g /\ 25 + grid x y <= b.
Proof.
  intros Hb Hn. rewrite shade_sum.
  pose proof (side_gain_nonneg x y blocks Hb).
  pose proof (green_gain_nonneg x y blocks Hb).
  pose proof (side_le_green x y blocks Hb).
  destruct (grid_cases x y) as [Hg | Hg]; rewrite Hg; lia.
Qed.

(** X7. In every generated file each pixel has red <= blue <= green, and no
    channel is below its base tone plus the grid boost: red is at least
    [20 + grid], green at least [30 + grid] and blue at least [25 + grid],
    where [grid] is 30 on a grid line and 0 elsewhere. *)
Theorem emitted_channel_order (tape : nat -> Z) (width height : Z) (k : nat)
    (x y : Z) :
  0 < width -> 0 < height -> 14 + 40 + row_size width * height < 2 ^ 32 ->
  0 <= x < width -> 0 <= y < height ->
  let out := written (run tape width height k).2 in
  let off := Z.to_nat (54 + y * row_size width + 3 * x) in
  exists r g b : Z,
    out !! off = Some b /\ out !! (off + 1)%nat = Some g /\
    out !! (off + 2)%nat = Some r /\
    r <= b <= g /\
    20 + grid x y <= r /\ 30 + grid x y <= g /\ 25 + grid x y <= b.
Proof.
  intros Hw Hh Hsize Hx Hy out off.
  pose proof (positive_encodable _ _ Hw Hh Hsize) as Henc.
  pose proof (file_pixel tape width height k x y 0 Henc Hx Hy ltac:(lia)) as H0.
  pose proof (file_pixel tape width height k x y 1 Henc Hx Hy ltac:(lia)) as H1.
  pose proof (file_pixel tape width height k x y 2 Henc Hx Hy ltac:(lia)) as H2.
  rewrite Nat.add_0_r in H0. fold out off in H0, H1, H2.
  pose proof (shade_order (sampled_blocks tape width height k)
                (noise_at tape width k x y) x y
                (sampled_blocks_boost tape width height k)) as Hord.
  pose proof (draw_in_range tape 0 10 (noise_index width k x y) ltac:(lia)) as Hn.
  fold (noise_at tape width k x y) in Hn.
  unfold pixel_bytes in H0, H1, H2.
  destruct (shade (sampled_blocks tape width height k)
              (noise_at tape width k x y) x y) as [[r g] b].
  exists r, g, b. rewrite H0, H1, H2. split_and!; try done; apply Hord; lia.
Qed.

Lemma emitted_channel_order_witness :
  let out := written (run (fun i : nat => Z.of_nat i * 7) 3 2 0).2 in
  exists r g b : Z,
    out !! 69%nat = Some b /\ out !! 70%nat = Some g /\ out !! 71%nat = Some r /\
    r <= b <= g /\
    20 + grid 1 1 <= r /\ 30 + grid 1 1 <= g /\ 25 + grid 1 1 <= b.
Proof.
  apply (emitted_channel_order (fun i : nat => Z.of_nat i * 7) 3 2 0 1 1);
    vm_compute; intuition discriminate.
Defined.

(** ** Pixels by coverage *)

Lemma Zsum_map_ge_first {A} (f : A -> Z) (c : Z) (l : list A) :
  l <> [] -> Forall (fun a => c <= f a) l -> 0 <= c -> c <= Zsum (map f l).
Proof.
  intros Hne Hall Hc. destruct Hall as [|a l Ha Hl]; [done |].
  simpl. assert (0 <= Zsum (map f l)); [| lia].
  apply Zsum_nonneg, Forall_map. eapply Forall_impl; [exact Hl |].
  intros a' Ha'; simpl in Ha' |- *. lia.
Qed.

Lemma covering_in_ranges (width height : Z) (blocks : list block) (x y : Z) :
  Forall (block_in_ranges width height) blocks ->
  Forall (block_in_ranges width height) (covering blocks x y).
Proof.
  unfold covering. induction 1 as [|k blocks Hk _ IH]; simpl; [constructor |].
  destruct (inside k x y); [by constructor | done].
Qed.

(** X8. A pixel that no sampled block contains is stored exactly as base tone
    plus its noise draw plus the grid boost, never clamped; a pixel that some
    sampled block contains is at least 10 brighter than that in red and blue
    and at least 20 brighter in green. *)
Theorem pixel_by_coverage (tape : nat -> Z) (width height : Z) (k : nat) (x y : Z) :
  0 < width -> 0 < height -> 14 + 40 + row_size width * height < 2 ^ 32 ->
  0 <= x < width -> 0 <= y < height ->
  let out := written (run tape width height k).2 in
  let blocks := sampled_blocks tape width height k in
  let n := noise_at tape width k x y in
  let off := Z.to_nat (54 + y * row_size width + 3 * x) in
  (covering blocks x y = [] ->
   out !! off = Some (25 + n + grid x y) /\
   out !! (off + 1)%nat = Some (30 + n + grid x y) /\
   out !! (off + 2)%nat = Some (20 + n + grid x y)) /\
  (covering blocks x y <> [] ->
   exists r g b : Z,
     out !! off = Some b /\ out !! (off + 1)%nat = Some g /\
     out !! (off + 2)%nat = Some r /\
     35 + n + grid x y <= b /\ 50 + n + grid x y <= g /\ 30 + n + grid x y <= r).
Proof.
  intros Hw Hh Hsize Hx Hy out blocks n off.
  pose proof (positive_encodable _ _ Hw Hh Hsize) as Henc.
  pose proof (sampled_blocks_boost tape width height k) as Hb.
  pose proof (file_pixel tape width height k x y 0 Henc Hx Hy ltac:(lia)) as H0.
  pose proof (file_pixel tape width height k x y 1 Henc Hx Hy ltac:(lia)) as H1.
  pose proof (file_pixel tape width height k x y 2 Henc Hx Hy ltac:(lia)) as H2.
  rewrite pixel_bytes_spec in H0, H1, H2 by done.
  rewrite Nat.add_0_r in H0. fold out off blocks n in H0, H1, H2.
  cbn [lookup list_lookup] in H0, H1, H2.
  pose proof (draw_in_range tape 0 10 (noise_index width k x y) ltac:(lia)) as Hn.
  fold (noise_at tape width k x y) in Hn. fold n in Hn.
  rewrite H0, H1, H2. unfold spec_blue, spec_green, spec_red.
  split.
  - intros ->. cbn [map Zsum fold_right].
    destruct (grid_cases x y) as [Hg | Hg]; rewrite Hg;
      split_and!; f_equal; lia.
  - intros Hne.
    pose proof (covering_in_ranges width height blocks x y
                  (blocks_from_in_ranges tape width height k 50 ltac:(lia) ltac:(lia)))
      as Hcov.
    assert (10 <= Zsum (map (fun b => color_boost b ÷ 2) (covering blocks x y)))
      as Hside.
    { apply Zsum_map_ge_first; [done | | lia].
      eapply Forall_impl; [exact Hcov |]. intros b (_ & _ & _ & _ & Hboost); simpl.
      rewrite Z.quot_div_nonneg by lia. Z.div_mod_to_equations. lia. }
    assert (20 <= Zsum (map (fun b => color_boost b
                               + (if on_boundary b x y then 40 else 0))
                            (covering blocks x y))) as Hgreen.
    { apply Zsum_map_ge_first; [done | | lia].
      eapply Forall_impl; [exact Hcov |]. intros b (_ & _ & _ & _ & Hboost); simpl.
      destruct (on_boundary b x y); lia. }
    eexists _, _, _. split_and!; try reflexivity;
      destruct (grid_cases x y) as [Hg | Hg]; rewrite Hg; lia.
Qed.

Lemma pixel_by_coverage_witness :
  let tape := fun _ : nat => 2 in
  let out := written (run tape 2 2 0).2 in
  let n := noise_at tape 2 0 1 1 in
  out !! 65%nat = Some (25 + n + grid 1 1) /\
  out !! 66%nat = Some (30 + n + grid 1 1) /\
  out !! 67%nat = Some (20 + n + grid 1 1).
Proof.
  intros tape out n.
  refine (proj1 (pixel_by_coverage tape 2 2 0 1 1 _ _ _ _ _) _);
    vm_compute; intuition discriminate.
Defined.

(** ** Blocks that miss the pixel *)

Lemma side_gain_filter (x y : Z) (blocks : list block) :
  Zsum (map (side_gain x y) (covering blocks x y))
  = Zsum (map (side_gain x y) blocks).
Proof.
  unfold covering. induction blocks as [|k blocks IH]; simpl; [done |].
  destruct (inside k x y) eqn:Hin; simpl; rewrite IH; [done |].
  unfold side_gain at 2. by rewrite Hin.
Qed.

Lemma green_gain_filter (x y : Z) (blocks : list block) :
  Zsum (map (green_gain x y) (covering blocks x y))
  = Zsum (map (green_gain x y) blocks).
Proof.
  unfold covering. induction blocks as [|k blocks IH]; simpl; [done |].
  destruct (inside k x y) eqn:Hin; simpl; rewrite IH; [done |].
  unfold green_gain at 2. by rewrite Hin.
Qed.

(** X9. Only the blocks that contain a pixel matter for it: dropping all the
    others from the list leaves its colour unchanged.  In particular a block
    whose corner was drawn on the far edge ([x = width] or [y = height], or
    beyond) changes no pixel of the image. *)
Theorem missing_blocks_are_invisible (blocks : list block) (n x y : Z) :
  shade blocks n x y = shade (covering blocks x y) n x y /\
  (forall (k : block) (width height : Z),
     width <= bx k \/ height <= by_ k -> x < width -> y < height ->
     shade (k :: blocks) n x y = shade blocks n x y).
Proof.
  split.
  - rewrite !shade_sum. by rewrite side_gain_filter, green_gain_filter.
  - intros k width height Hedge Hx Hy. rewrite !shade_sum. cbn [map Zsum fold_right].
    assert (inside k x y = false) as Hout.
    { unfold inside. destruct Hedge.
      - destruct (Z.leb_spec (bx k) x); [lia | done].
      - destruct (Z.leb_spec (by_ k) y); [lia |]. by rewrite !andb_false_r. }
    unfold side_gain at 1 3, green_gain at 1. rewrite Hout.
    fold (Zsum (map (side_gain x y) blocks)).
    fold (Zsum (map (green_gain x y) blocks)).
    by rewrite !Z.add_0_l.
Qed.

(** ** Layers only add *)

(** X10. Adding a block whose boost is not negative, or raising the noise value,
    lowers no channel of any pixel. *)
Theorem layers_only_add (k : block) (blocks : list block) (n n' x y : Z) :
  0 <= color_boost k -> n <= n' ->
  let '(r, g, b) := shade blocks n x y in
  let '(r', g', b') := shade (k :: blocks) n' x y in
  r <= r' /\ g <= g' /\ b <= b'.
Proof.
  intros Hk Hn. rewrite !shade_sum. cbn [map Zsum fold_right].
  fold (Zsum (map (side_gain x y) blocks)).
  fold (Zsum (map (green_gain x y) blocks)).
  assert (0 <= side_gain x y k).
  { unfold side_gain. destruct (inside k x y); [| lia].
    Z.div_mod_to_equations. lia. }
  assert (0 <= green_gain x y k).
  { unfold green_gain. destruct (inside k x y); [| lia].
    destruct (on_boundary k x y); lia. }
  lia.
Qed.

Lemma layers_only_add_witness :
  let '(r, g, b) := shade [Block 0 0 50 50 20] 3 4 4 in
  let '(r', g', b') := shade [Block 2 2 60 60 41; Block 0 0 50 50 20] 7 4 4 in
  r <= r' /\ g <= g' /\ b <= b'.
Proof.
  apply (layers_only_add (Block 2 2 60 60 41) [Block 0 0 50 50 20] 3 7 4 4);
    vm_compute; discriminate.
Defined.

(** ** The shipped entry point *)

Lemma rows_from_is_byte (tape : nat -> Z) (blocks : list block) (width y : Z)
    (i m : nat) :
  Forall (fun b => 0 <= color_boost b) blocks ->
  Forall is_byte (rows_from tape blocks width y i m).
Proof.
  intros Hb. revert y i. induction m as [|m IH]; intros y i; cbn [rows_from];
    [constructor |].
  apply Forall_app; split; [| apply IH].
  unfold row_bytes. apply Forall_app; split;
    [| apply Forall_replicate; unfold is_byte; lia].
  generalize (Z.to_nat width) as c. generalize 0 as x0. intros x0 c.
  revert i x0. induction c as [|c IHc]; intros i x0; cbn [pixels_from];
    [constructor |].
  apply Forall_app; split; [| apply IHc].
  apply shade_is_byte; [done |].
  pose proof (draw_in_range tape 0 10 i ltac:(lia)). lia.
Qed.


(** * Properties of [upload_directory] *)

Section Upload.

Context {R : Type} `{SftpClient R} (fs : local_fs).

Lemma event_ok_more (p q : string) (before before' : list event) (ev : event) :
  (forall e, In e before -> In e before') ->
  event_ok fs p q before ev -> event_ok fs p q before' ev.
Proof.
  intros Hsub. destruct ev as [line | q' | l r]; simpl; [done | done |].
  intros (p' & q' & items & item & Hv & Hl & Hin & Hf & -> & -> & Hmk).
  exists p', q', items, item. split_and!; auto.
Qed.

Lemma trace_ok_more (p q : string) (before before' evs : list event) :
  (forall e, In e before -> In e before') ->
  trace_ok fs p q before evs -> trace_ok fs p q before' evs.
Proof.
  revert before before'. induction evs as [|ev evs IH]; intros before before' Hsub;
    simpl; [done |].
  intros [Hev Hrest]. split; [by eapply event_ok_more |].
  eapply IH; [| exact Hrest].
  intros e. rewrite !in_app_iff. intros [He | He]; auto.
Qed.

Lemma trace_ok_app (p q : string) (before evs1 evs2 : list event) :
  trace_ok fs p q before evs1 -> trace_ok fs p q (before ++ evs1) evs2 ->
  trace_ok fs p q before (evs1 ++ evs2).
Proof.
  revert before. induction evs1 as [|ev evs1 IH]; intros before; simpl.
  - by rewrite app_nil_r.
  - intros [Hev Hrest] H2. split; [done |].
    apply IH; [done |]. by rewrite <- app_assoc.
Qed.

(** Events accounted for below an entry are accounted for from its parent. *)
Lemma event_ok_lift (p q : string) (items : list string) (item : string)
    (before : list event) (ev : event) :
  listdir fs p = Returns items -> In item items ->
  isfile fs (path_join p item) = false -> isdir fs (path_join p item) = true ->
  event_ok fs (path_join p item) (remote_join q item) before ev ->
  event_ok fs p q before ev.
Proof.
  intros Hl Hin Hf Hd. destruct ev as [line | q' | l r]; simpl; [done | |].
  - intros [p' Hv]. exists p'. by eapply visits_below.
  - intros (p' & q' & items' & item' & Hv & Hrest).
    exists p', q', items', item'. split; [by eapply visits_below | done].
Qed.

Lemma trace_ok_lift (p q : string) (items : list string) (item : string)
    (before evs : list event) :
  listdir fs p = Returns items -> In item items ->
  isfile fs (path_join p item) = false -> isdir fs (path_join p item) = true ->
  trace_ok fs (path_join p item) (remote_join q item) before evs ->
  trace_ok fs p q before evs.
Proof.
  intros Hl Hin Hf Hd. revert before.
  induction evs as [|ev evs IH]; intros before; simpl; [done |].
  intros [Hev Hrest]. split; [by eapply event_ok_lift | by apply IH].
Qed.

(** The events one turn of the loop adds, for a file entry. *)
Lemma put_turn (l r : string) (s : session R) :
  exists res rem,
    (u_print ("Uploading file: " ++ l ++ " -> " ++ r) ;;~ u_put l r) s
    = (res, Session rem
              (events s ++ [Print ("Uploading file: " ++ l ++ " -> " ++ r); Put l r])).
Proof.
  unfold u_bind, u_print, u_put; cbn [remote events].
  destruct (sftp_put l r (remote s)) as [res rem].
  eexists _, rem. rewrite <- app_assoc. reflexivity.
Qed.

(** The events the guarded [mkdir] adds: the call itself, and the notice
    when it raised [IOError]; only another exception gets through. *)
Lemma mkdir_turn (q : string) (s : session R) :
  exists res rem notice,
    try_except_IOError (u_mkdir q)
      (u_print ("Directory " ++ q ++ " already exists.")) s
    = (res, Session rem (events s ++ Mkdir q :: notice)) /\
    (forall ev, In ev notice -> exists line, ev = Print line) /\
    (res = Returns tt
     \/ exists e, res = Raises e /\ e <> IOError /\ (sftp_mkdir q (remote s)).1 = Some e).
Proof.
  unfold u_print, try_except_IOError, u_mkdir; cbn [remote events].
  destruct (sftp_mkdir q (remote s)) as [[e |] rem] eqn:Hmk; cbn [fst remote events].
  - destruct e.
    + eexists _, rem, [_]. split; [by rewrite <- !app_assoc |].
      split; [| by left]. intros ev [<- | []]. eauto.
    + eexists _, rem, []. split; [done |].
      split; [by intros ev [] |]. right. eauto.
    + eexists _, rem, []. split; [done |].
      split; [by intros ev [] |]. right. eauto.
  - eexists _, rem, []. split; [done |].
    split; [by intros ev [] | by left].
Qed.

Lemma trace_ok_prints (p q : string) (before notice : list event) :
  (forall ev, In ev notice -> exists line, ev = Print line) ->
  trace_ok fs p q before notice.
Proof.
  revert before. induction notice as [|ev notice IH]; intros before Hall; simpl; [done |].
  split.
  - destruct (Hall ev (or_introl eq_refl)) as [line ->]. done.
  - apply IH. intros ev' Hev'. apply Hall. by right.
Qed.

Lemma u_bind_returns {A B} (m : U R A) (k : A -> U R B) (s s' : session R) (b : B) :
  u_bind m k s = (Returns b, s') ->
  exists a s1, m s = (Returns a, s1) /\ k a s1 = (Returns b, s').
Proof.
  unfold u_bind. destruct (m s) as [[a | e] s1]; [| done]. eauto.
Qed.

Lemma upload_directory_step (depth : nat) (p q : string) (s : session R) :
  upload_directory fs (S depth) p q s
  = (try_except_IOError (u_mkdir q)
       (u_print ("Directory " ++ q ++ " already exists.")) ;;~
     items <~ u_listdir fs p ;;
     u_for items (upload_item fs (upload_directory fs depth) p q))
      (Session (remote s)
         (events s ++ [Print ("Creating remote directory: " ++ q)])).
Proof. reflexivity. Qed.

(** *** Nothing but what the walk finds *)

Section OneLevel.

Variable recurse : string -> string -> U R unit.
Variables (p q : string) (items : list string).
Hypothesis listing : listdir fs p = Returns items.

Hypothesis recurse_trace :
  forall p1 q1 s, exists evs,
    events (recurse p1 q1 s).2 = events s ++ evs /\
    forall before, trace_ok fs p1 q1 before evs.

Lemma item_trace (item : string) (s : session R) (before : list event) :
  In item items -> In (Mkdir q) before ->
  exists evs,
    events (upload_item fs recurse p q item s).2 = events s ++ evs /\
    trace_ok fs p q before evs.
Proof.
  intros Hin Hmk. unfold upload_item.
  destruct (isfile fs (path_join p item)) eqn:Hf;
    [| destruct (isdir fs (path_join p item)) eqn:Hd].
  - destruct (put_turn (path_join p item) (remote_join q item) s)
      as (res & rem & ->).
    eexists. split; [reflexivity |]. cbn [trace_ok event_ok]. split_and!; try done.
    exists p, q, items, item. split_and!; try done; [apply visits_here |].
    apply in_app_iff. by left.
  - destruct (recurse_trace (path_join p item) (remote_join q item) s)
      as (evs & Hev & Hok).
    exists evs. split; [done |]. by eapply trace_ok_lift.
  - exists []. split; [by rewrite app_nil_r | done].
Qed.

Lemma loop_trace (l : list string) (s : session R) (before : list event) :
  (forall item, In item l -> In item items) -> In (Mkdir q) before ->
  exists evs,
    events (u_for l (upload_item fs recurse p q) s).2 = events s ++ evs /\
    trace_ok fs p q before evs.
Proof.
  revert s before. induction l as [|item l IH]; intros s before Hsub Hmk.
  - exists []. split; [by rewrite app_nil_r | done].
  - cbn [u_for]. unfold u_bind.
    destruct (item_trace item s before (Hsub item (or_introl eq_refl)) Hmk)
      as (evs1 & Hev1 & Hok1).
    destruct (upload_item fs recurse p q item s) as [[[] | e] s1]; cbn [snd] in Hev1.
    + destruct (IH s1 (before ++ evs1)) as (evs2 & Hev2 & Hok2).
      { intros i Hi. apply Hsub. by right. }
      { apply in_app_iff. by left. }
      exists (evs1 ++ evs2). split; [by rewrite Hev2, Hev1, app_assoc |].
      by apply trace_ok_app.
    + exists evs1. split; [done | done].
Qed.

End OneLevel.

Lemma upload_trace (depth : nat) (p q : string) (s : session R) :
  exists evs,
    events (upload_directory fs depth p q s).2 = events s ++ evs /\
    forall before, trace_ok fs p q before evs.
Proof.
  revert p q s. induction depth as [|depth IH]; intros p q s.
  - exists []. split; [by rewrite app_nil_r | done].
  - rewrite upload_directory_step. unfold u_bind at 1.
    destruct (mkdir_turn q (Session (remote s)
                (events s ++ [Print ("Creating remote directory: " ++ q)])))
      as (res & rem & notice & -> & Hnotice & Hres).
    cbn [events]. rewrite <- app_assoc. cbn [app].
    set (head := Print ("Creating remote directory: " ++ q) :: Mkdir q :: notice).
    assert (forall before, trace_ok fs p q before head) as Hhead.
    { intros before. subst head. cbn [trace_ok event_ok].
      split_and!; [done | exists p; apply visits_here |].
      by apply trace_ok_prints. }
    destruct res as [[] | e]; [| by exists head].
    unfold u_bind, u_listdir. destruct (listdir fs p) as [items | e] eqn:Hl;
      [| by exists head].
    destruct (loop_trace (upload_directory fs depth) p q items Hl IH items
                (Session rem (events s ++ head)) head)
      as (evs & Hev & Hok); [done | subst head; right; by left |].
    exists (head ++ evs). cbn [events] in Hev.
    split; [by rewrite Hev, app_assoc |].
    intros before. apply trace_ok_app; [done |].
    eapply trace_ok_more; [| exact Hok].
    intros e He. apply in_app_iff. by right.
Qed.

Lemma trace_ok_at (p q : string) (before evs : list event) (i : nat) (ev : event) :
  trace_ok fs p q before evs -> evs !! i = Some ev ->
  event_ok fs p q (before ++ take i evs) ev.
Proof.
  revert before i. induction evs as [|e evs IH]; intros before i; [done |].
  cbn [trace_ok]. intros [Hev Hrest] Hi. destruct i as [|i].
  - injection Hi as ->. by rewrite app_nil_r.
  - cbn [take firstn]. replace (before ++ e :: take i evs)
      with ((before ++ [e]) ++ take i evs) by (by rewrite <- app_assoc).
    by apply IH.
Qed.

End Upload.

(** X12. Whatever the local tree and the server do, and however the call ends:
    the events the call adds hold a [mkdir] only for the remote side of a
    directory the walk visits, and a [put] only for an entry of a visited
    directory that [os.path.isfile] accepts, sent to [remote/item] of that
    directory, after the [mkdir] of that remote directory.  Entries that are
    neither files nor directories are never sent. *)
Theorem upload_only_what_it_finds {R : Type} `{SftpClient R} (fs : local_fs)
    (depth : nat) (p q : string) (s : session R) :
  exists evs,
    events (upload_directory fs depth p q s).2 = events s ++ evs /\
    (forall i q', evs !! i = Some (Mkdir q') -> exists p', visits fs p q p' q') /\
    (forall i l r, evs !! i = Some (Put l r) ->
       exists p' q' items item,
         visits fs p q p' q' /\ listdir fs p' = Returns items /\ In item items /\
         isfile fs l = true /\ l = path_join p' item /\ r = remote_join q' item /\
         exists j, (j < i)%nat /\ evs !! j = Some (Mkdir q')).
Proof.
  destruct (upload_trace fs depth p q s) as (evs & Hev & Hok).
  exists evs. split; [done |]. split.
  - intros i q' Hi. exact (trace_ok_at fs p q [] evs i _ (Hok []) Hi).
  - intros i l r Hi.
    destruct (trace_ok_at fs p q [] evs i _ (Hok []) Hi)
      as (p' & q' & items & item & Hv & Hl & Hin & Hf & -> & -> & Hmk).
    exists p', q', items, item. split_and!; try done.
    cbn [app] in Hmk. apply list_elem_of_In, list_elem_of_lookup in Hmk as [j Hj].
    apply lookup_take_Some in Hj as [Hj Hlt]. eauto.
Qed.

(** *** Everything the walk finds *)

Section Coverage.

Context {R : Type} `{SftpClient R} (fs : local_fs).

Lemma covers_more (p' q' : string) (evs evs' : list event) :
  (forall e, In e evs -> In e evs') -> covers fs p' q' evs -> covers fs p' q' evs'.
Proof. intros Hsub [Hmk Hput]. split; [auto |]. intros items item ???. eauto. Qed.

Section OneLevel.

Variable recurse : string -> string -> U R unit.
Variables (p q : string).

Hypothesis recurse_covers :
  forall p1 q1 s s', recurse p1 q1 s = (Returns tt, s') ->
    exists evs, events s' = events s ++ evs /\
      forall p' q', visits fs p1 q1 p' q' -> covers fs p' q' evs.

Lemma item_done_more (item : string) (evs evs' : list event) :
  (forall e, In e evs -> In e evs') -> item_done fs p q item evs -> item_done fs p q item evs'.
Proof.
  intros Hsub [Hfile Hdir]. split; [auto |].
  intros Hf Hd p' q' Hv. eapply covers_more; [exact Hsub | by apply Hdir].
Qed.

Lemma item_covers (item : string) (s s' : session R) :
  upload_item fs recurse p q item s = (Returns tt, s') ->
  exists evs, events s' = events s ++ evs /\ item_done fs p q item evs.
Proof.
  unfold upload_item, item_done.
  destruct (isfile fs (path_join p item)) eqn:Hf;
    [| destruct (isdir fs (path_join p item)) eqn:Hd].
  - destruct (put_turn (path_join p item) (remote_join q item) s)
      as (res & rem & ->).
    intros [= -> <-]. eexists. split; [reflexivity |].
    split; [| done]. intros _. right. by left.
  - intros Hrun. destruct (recurse_covers _ _ _ _ Hrun) as (evs & Hev & Hcov).
    exists evs. split; [done |]. split; [done | auto].
  - intros [= <-]. exists []. split; [by rewrite app_nil_r |]. split; done.
Qed.

Lemma loop_covers (l : list string) (s s' : session R) :
  u_for l (upload_item fs recurse p q) s = (Returns tt, s') ->
  exists evs, events s' = events s ++ evs /\
    forall item, In item l -> item_done fs p q item evs.
Proof.
  revert s. induction l as [|item l IH]; intros s.
  - intros [= <-]. exists []. split; [by rewrite app_nil_r | by intros ? []].
  - cbn [u_for]. intros Hrun.
    apply u_bind_returns in Hrun as ([] & s1 & Hitem & Hrest).
    destruct (item_covers item s s1 Hitem) as (evs1 & Hev1 & Hdone1).
    destruct (IH s1 Hrest) as (evs2 & Hev2 & Hdone2).
    exists (evs1 ++ evs2). split; [by rewrite Hev2, Hev1, app_assoc |].
    intros i [<- | Hi].
    + eapply item_done_more; [| exact Hdone1].
      intros e He. apply in_app_iff. by left.
    + eapply item_done_more; [| exact (Hdone2 i Hi)].
      intros e He. apply in_app_iff. by right.
Qed.

End OneLevel.

Lemma upload_covers (depth : nat) (p q : string) (s s' : session R) :
  upload_directory fs depth p q s = (Returns tt, s') ->
  exists evs, events s' = events s ++ evs /\
    forall p' q', visits fs p q p' q' -> covers fs p' q' evs.
Proof.
  revert p q s s'. induction depth as [|depth IH]; intros p q s s'; [done |].
  rewrite upload_directory_step. unfold u_bind at 1.
  destruct (mkdir_turn q (Session (remote s)
              (events s ++ [Print ("Creating remote directory: " ++ q)])))
    as (res & rem & notice & -> & _ & _).
  destruct res as [[] | e]; [| done].
  unfold u_bind at 1, u_listdir.
  destruct (listdir fs p) as [items | e] eqn:Hl; [| done].
  intros Hloop.
  destruct (loop_covers (upload_directory fs depth) p q IH items _ _ Hloop)
    as (evs & Hev & Hdone).
  cbn [events] in Hev. rewrite <- !app_assoc in Hev. cbn [app] in Hev.
  eexists. split; [exact Hev |].
  intros p' q' Hv. inversion Hv as [| ? ? ? ? items' item Hl' Hin Hf Hd Hv']; subst.
  - split; [right; by left |].
    intros items' item Hl' Hin Hf.
    assert (items' = items) as -> by congruence.
    apply in_cons, in_cons, in_app_iff. right. by apply (Hdone item Hin).
  - assert (items' = items) as -> by congruence.
    eapply covers_more; [| exact (proj2 (Hdone item Hin) Hf Hd p' q' Hv')].
    intros e He. apply in_cons, in_cons, in_app_iff. by right.
Qed.

(** *** When the call returns *)

Lemma loop_returns (recurse : string -> string -> U R unit) (p q : string)
    (items l : list string) (s : session R) :
  (forall a path r, (sftp_put a path r).1 = None) ->
  (forall item, In item items ->
     isfile fs (path_join p item) = false -> isdir fs (path_join p item) = true ->
     forall q' s', (recurse (path_join p item) q' s').1 = Returns tt) ->
  (forall item, In item l -> In item items) ->
  (u_for l (upload_item fs recurse p q) s).1 = Returns tt.
Proof.
  intros Hput Hrec. revert s. induction l as [|item l IHl]; intros s Hsub; [done |].
  cbn [u_for]. unfold u_bind.
  assert ((upload_item fs recurse p q item s).1 = Returns tt) as Hitem.
  { unfold upload_item.
    destruct (isfile fs (path_join p item)) eqn:Hf;
      [| destruct (isdir fs (path_join p item)) eqn:Hd]; [| | done].
    - unfold u_bind, u_print, u_put; cbn [remote events fst].
      specialize (Hput (path_join p item) (remote_join q item) (remote s)).
      destruct (sftp_put _ _ _) as [res rem']; cbn [fst] in *. by subst res.
    - apply Hrec; [apply Hsub; by left | done | done]. }
  destruct (upload_item fs recurse p q item s) as [[[] | e] s1]; [| done].
  apply IHl. intros i Hi. apply Hsub. by right.
Qed.

Lemma upload_returns (depth : nat) (p q : string) (s : session R) :
  tolerable -> tree_within fs depth p ->
  (upload_directory fs depth p q s).1 = Returns tt.
Proof.
  intros [Hmkdir Hput] Htree. revert q s.
  induction Htree as [depth p items Hl _ IH]; intros q s.
  rewrite upload_directory_step. unfold u_bind at 1.
  destruct (mkdir_turn q (Session (remote s)
              (events s ++ [Print ("Creating remote directory: " ++ q)])))
    as (res & rem & notice & -> & _ & [-> | (e & -> & Hne & He)]).
  - unfold u_bind, u_listdir. rewrite Hl.
    by apply (loop_returns (upload_directory fs depth) p q items items).
  - cbn [remote] in He. destruct (Hmkdir q (remote s)) as [Hnone | Hio]; congruence.
Qed.

End Coverage.

(** X13. If the call returns normally, every directory the walk visits has had
    its remote side created (or found existing), and every entry of a
    visited directory that [os.path.isfile] accepts has been sent to
    [remote/item] of that directory. *)
Theorem upload_sends_everything {R : Type} `{SftpClient R} (fs : local_fs)
    (depth : nat) (p q : string) (s s' : session R) :
  upload_directory fs depth p q s = (Returns tt, s') ->
  exists evs,
    events s' = events s ++ evs /\
    forall p' q', visits fs p q p' q' ->
      In (Mkdir q') evs /\
      forall items item,
        listdir fs p' = Returns items -> In item items ->
        isfile fs (path_join p' item) = true ->
        In (Put (path_join p' item) (remote_join q' item)) evs.
Proof. apply upload_covers. Qed.

Lemma upload_sends_everything_witness :
  exists evs,
    events (Session
              ["site/images/chip_bg.bmp"; "site/images"; "site/index.html"; "site"]%string
              [Print "Creating remote directory: site";
               Mkdir "site";
               Print "Directory site already exists.";
               Print "Uploading file: dist/index.html -> site/index.html";
               Put "dist/index.html" "site/index.html";
               Print "Creating remote directory: site/images";
               Mkdir "site/images";
               Print "Uploading file: dist/images/chip_bg.bmp -> site/images/chip_bg.bmp";
               Put "dist/images/chip_bg.bmp" "site/images/chip_bg.bmp"])
    = events (Session ["site"%string] []) ++ evs /\
    forall p' q', visits sample_fs "dist" "site" p' q' ->
      In (Mkdir q') evs /\
      forall items item,
        listdir sample_fs p' = Returns items -> In item items ->
        isfile sample_fs (path_join p' item) = true ->
        In (Put (path_join p' item) (remote_join q' item)) evs.
Proof.
  apply (upload_sends_everything sample_fs 5 "dist" "site" (Session ["site"%string] [])).
  vm_compute. reflexivity.
Defined.

(** X14. On a local tree whose listings succeed and whose nesting fits the depth
    the interpreter allows, with a client whose [mkdir] fails only with
    [IOError] and whose [put] does not fail, the call returns normally: an
    existing remote directory, and entries that are neither files nor
    directories, do not stop it. *)
Theorem upload_returns_on_a_tree {R : Type} `{SftpClient R} (fs : local_fs)
    (depth : nat) (p q : string) (s : session R) :
  tolerable -> tree_within fs depth p ->
  (upload_directory fs depth p q s).1 = Returns tt.
Proof. apply upload_returns. Qed.

Lemma sample_fs_tree : tree_within sample_fs 2 "dist".
Proof.
  apply (tree_within_dir sample_fs 1 "dist" ["index.html"; "images"; "socket"]%string);
    [reflexivity |].
  intros item [<- | [<- | [<- | []]]] Hf Hd; try discriminate Hf; try discriminate Hd.
  apply (tree_within_dir sample_fs 0 _ ["chip_bg.bmp"]%string); [reflexivity |].
  intros item' [<- | []] Hf' Hd'. discriminate Hf'.
Defined.

Lemma path_set_client_tolerable : @tolerable (list string) path_set_client.
Proof.
  split.
  - intros path r. cbn. destruct (holds path r); auto.
  - intros l path r. reflexivity.
Defined.

Lemma upload_returns_on_a_tree_witness :
  (upload_directory sample_fs 2 "dist" "site" (Session ["site"%string] [])).1
  = Returns tt.
Proof.
  apply (upload_returns_on_a_tree sample_fs 2 "dist" "site" (Session ["site"%string] [])).
  - exact path_set_client_tolerable.
  - exact sample_fs_tree.
Defined.

(** *** What can make the call fail *)

Section Failure.

Context {R : Type} `{SftpClient R} (fs : local_fs).

Lemma failure_cause_lift (p q : string) (items : list string) (item : string)
    (e : py_exn) :
  listdir fs p = Returns items -> In item items ->
  isfile fs (path_join p item) = false -> isdir fs (path_join p item) = true ->
  failure_cause fs (path_join p item) (remote_join q item) e ->
  failure_cause fs p q e.
Proof.
  intros Hl Hin Hf Hd [-> | [(p' & q' & Hv & He) | [(Hne & p' & q' & r & Hv & He)
                                                  | (p' & q' & i & r & Hv & Hfi & He)]]].
  - by left.
  - right; left. exists p', q'. split; [by eapply visits_below | done].
  - right; right; left. split; [done |]. exists p', q', r.
    split; [by eapply visits_below | done].
  - right; right; right. exists p', q', i, r.
    split; [by eapply visits_below | done].
Qed.

Lemma loop_failure (recurse : string -> string -> U R unit) (p q : string)
    (items l : list string) (s : session R) (e : py_exn) :
  listdir fs p = Returns items ->
  (forall p1 q1 s1, (recurse p1 q1 s1).1 = Raises e -> failure_cause fs p1 q1 e) ->
  (forall item, In item l -> In item items) ->
  (u_for l (upload_item fs recurse p q) s).1 = Raises e ->
  failure_cause fs p q e.
Proof.
  intros Hl Hrec. revert s. induction l as [|item l IHl]; intros s Hsub; [done |].
  cbn [u_for]. unfold u_bind.
  destruct (upload_item fs recurse p q item s) as [[[] | e'] s1] eqn:Hitem.
  - apply IHl. intros i Hi. apply Hsub. by right.
  - cbn [fst]. intros [= ->]. revert Hitem. unfold upload_item.
    destruct (isfile fs (path_join p item)) eqn:Hf;
      [| destruct (isdir fs (path_join p item)) eqn:Hd]; [| | done].
    + unfold u_bind, u_print, u_put; cbn [remote events].
      destruct (sftp_put (path_join p item) (remote_join q item) (remote s))
        as [[e'' |] rem] eqn:Hput; [| done].
      intros [= -> _]. right; right; right.
      exists p, q, item, (remote s). split; [apply visits_here |].
      split; [done |]. by rewrite Hput.
    + intros Hrun. eapply failure_cause_lift; eauto.
      * apply Hsub. by left.
      * apply (Hrec _ _ s). by rewrite Hrun.
Qed.

Lemma upload_failure (depth : nat) (p q : string) (s : session R) (e : py_exn) :
  (upload_directory fs depth p q s).1 = Raises e -> failure_cause fs p q e.
Proof.
  revert p q s. induction depth as [|depth IH]; intros p q s.
  - intros [= <-]. by left.
  - rewrite upload_directory_step. unfold u_bind at 1.
    destruct (mkdir_turn q (Session (remote s)
                (events s ++ [Print ("Creating remote directory: " ++ q)])))
      as (res & rem & notice & -> & _ & [-> | (e' & -> & Hne & He)]).
    + unfold u_bind at 1, u_listdir.
      destruct (listdir fs p) as [items | e'] eqn:Hl.
      * by apply (loop_failure (upload_directory fs depth) p q items items).
      * intros [= ->]. right; left. exists p, q. split; [apply visits_here | done].
    + intros [= ->]. right; right; left. split; [done |].
      exists p, q, (remote s). split; [apply visits_here | done].
Qed.

End Failure.

(** X15. If the call raises [e], then [e] is [RecursionError], or [os.listdir]
    raised it on a visited directory, or [mkdir] raised it for a visited
    remote directory and it is not an [IOError], or [put] raised it for a
    file entry of a visited directory.  An [IOError] of [mkdir] never
    escapes. *)
Theorem upload_failure_causes {R : Type} `{SftpClient R} (fs : local_fs)
    (depth : nat) (p q : string) (s : session R) (e : py_exn) :
  (upload_directory fs depth p q s).1 = Raises e ->
  e = RecursionError
  \/ (exists p' q', visits fs p q p' q' /\ listdir fs p' = Raises e)
  \/ (e <> IOError /\
      exists p' q' r, visits fs p q p' q' /\ (sftp_mkdir q' r).1 = Some e)
  \/ (exists p' q' item r,
        visits fs p q p' q' /\ isfile fs (path_join p' item) = true /\
        (sftp_put (path_join p' item) (remote_join q' item) r).1 = Some e).
Proof. apply upload_failure. Qed.

Lemma upload_failure_causes_witness :
  RecursionError = RecursionError
  \/ (exists p' q', visits sample_fs "dist" "site" p' q'
                    /\ listdir sample_fs p' = Raises RecursionError)
  \/ (RecursionError <> IOError /\
      exists p' q' r, visits sample_fs "dist" "site" p' q'
                      /\ (sftp_mkdir q' r).1 = Some RecursionError)
  \/ (exists p' q' item r,
        visits sample_fs "dist" "site" p' q' /\
        isfile sample_fs (path_join p' item) = true /\
        (sftp_put (path_join p' item) (remote_join q' item) r).1
        = Some RecursionError).
Proof.
  apply (upload_failure_causes sample_fs 1 "dist" "site" (Session ["site"%string] [])).
  vm_compute. reflexivity.
Defined.

(** *** Where the uploads go *)

Lemma string_append_assoc (a b c : string) :
  ((a ++ b) ++ c = a ++ (b ++ c))%string.
Proof. induction a as [|ch a IH]; simpl; [done | by rewrite IH]. Qed.

Lemma visits_remote (fs : local_fs) (p q p' q' : string) :
  visits fs p q p' q' ->
  q' = q \/ exists rest, q' = (q ++ "/" ++ rest)%string.
Proof.
  induction 1 as [| p q p' q' items item _ _ _ _ _ IH]; [by left |].
  right. unfold remote_join in IH. destruct IH as [-> | [rest ->]].
  - by exists item.
  - exists (item ++ "/" ++ rest)%string.
    by rewrite !string_append_assoc.
Qed.

(** X16. Every remote path the call touches lies under [remote_path]: each
    [mkdir] is for [remote_path] itself or a path that starts with
    [remote_path/], and each [put] is to a path that starts with
    [remote_path/]. *)
Theorem upload_stays_under_remote_path {R : Type} `{SftpClient R} (fs : local_fs)
    (depth : nat) (p q : string) (s : session R) :
  exists evs,
    events (upload_directory fs depth p q s).2 = events s ++ evs /\
    (forall i q', evs !! i = Some (Mkdir q') ->
       q' = q \/ exists rest, q' = (q ++ "/" ++ rest)%string) /\
    (forall i l r, evs !! i = Some (Put l r) ->
       exists rest, r = (q ++ "/" ++ rest)%string).
Proof.
  destruct (upload_trace fs depth p q s) as (evs & Hev & Hok).
  exists evs. split; [done |]. split.
  - intros i q' Hi.
    destruct (trace_ok_at fs p q [] evs i _ (Hok []) Hi) as [p' Hv].
    by eapply visits_remote.
  - intros i l r Hi.
    destruct (trace_ok_at fs p q [] evs i _ (Hok []) Hi)
      as (p' & q' & items & item & Hv & _ & _ & _ & _ & -> & _).
    unfold remote_join. destruct (visits_remote _ _ _ _ _ Hv) as [-> | [rest ->]].
    + by exists item.
    + exists (rest ++ "/" ++ item)%string. by rewrite !string_append_assoc.
Qed.
